(** * Binary decision diagrams: the builders of [src/bdd]

    A shallow embedding of the three programs of the repository,

    - [formula1_robdd.py]    (class [ROBDD]: reduced build, rules 1 and 2),
    - [formula1_just_bdd.py] (class [BDD]: plain build, one node per call),
    - [formula2_just_bdd.py] (class [BDD] again, with the majority oracle),

    and the properties of their node stores.

    Conventions.  Python integers are unbounded: node ids, which are list
    lengths, are [nat]; the values held by an assignment are [Z].  A Python
    [dict] from names to integers is a [gmap string Z].  A raised exception
    is a constructor of [exn]; a method that mutates [self] is a function
    from the object's state to an outcome and the state it leaves behind,
    also when it raises.  [self.var_order] is assigned once by [__init__]
    and never written again: it is a parameter of the builders.  The
    interpreter's recursion limit is not modelled. *)

From Stdlib Require Import ZArith String Ascii.
From stdpp Require Import gmap strings list fin_maps sorting pretty.

Local Open Scope Z_scope.
Local Open Scope nat_scope.

(** ** Data model *)

(** [env: Dict[str, int]] *)
Abbreviation Env := (gmap string Z).

(** [@dataclass class Node]: [var] is [None] for the terminals. *)
Record Node : Type := mkNode {
  var : option string;
  low : nat;
  high : nat
}.

Global Instance Node_eq_dec : EqDecision Node.
Proof. solve_decision. Defined.

(** The exceptions the builders can raise: a failed [env[key]] and a failed
    [self.var_order[idx]]. *)
Inductive exn : Type :=
| KeyError (key : string)
| IndexError.

(** What a call does: it returns, it raises, or (in the model only) the
    recursion budget of [build_fuel] is used up. *)
Inductive outcome (A : Type) : Type :=
| Return (a : A)
| Raise (e : exn)
| Fuel.
Arguments Return {A} a.
Arguments Raise {A} e.
Arguments Fuel {A}.

(** The nodes every store starts with: [Node(None, 0, 0)] and
    [Node(None, 1, 1)]. *)
Definition terminal0 : Node := mkNode None 0 0.
Definition terminal1 : Node := mkNode None 1 1.

(** The terminal [build] returns for the oracle's value [val]:
    [1 if val == 1 else 0]. *)
Definition terminal_of (val : Z) : nat := if decide (val = 1%Z) then 1 else 0.

(** ** The oracles *)

(** [env[key]] *)
Definition getitem (env : Env) (key : string) : exn + Z :=
  match env !! key with
  | Some x => inr x
  | None => inl (KeyError key)
  end.

(** [formula] of [formula1_robdd.py] and [formula1_just_bdd.py]:
    (a and not c) or (b xor d). *)
Definition formula1 (env : Env) : exn + Z :=
  match getitem env "a" with inl e => inl e | inr a =>
  match getitem env "b" with inl e => inl e | inr b =>
  match getitem env "c" with inl e => inl e | inr c =>
  match getitem env "d" with inl e => inl e | inr d =>
    let left := Z.land a (1 - c) in
    let right := Z.lxor b d in
    inr (if decide (Z.lor left right = 0) then 0 else 1)%Z
  end end end end.

(** [formula] of [formula2_just_bdd.py]: at least three of x1..x5. *)
Definition formula2 (env : Env) : exn + Z :=
  match getitem env "x1" with inl e => inl e | inr x1 =>
  match getitem env "x2" with inl e => inl e | inr x2 =>
  match getitem env "x3" with inl e => inl e | inr x3 =>
  match getitem env "x4" with inl e => inl e | inr x4 =>
  match getitem env "x5" with inl e => inl e | inr x5 =>
    let ones := (x1 + x2 + x3 + x4 + x5)%Z in
    inr (if decide (3 <= ones)%Z then 1 else 0)%Z
  end end end end end.

(** ** Memo keys *)

(** Python's order on the items of a dictionary, pairs [(str, int)]:
    lexicographic, strings by code point. *)
Definition item_leb (p q : string * Z) : bool :=
  match String.compare p.1 q.1 with
  | Lt => true
  | Eq => (p.2 <=? q.2)%Z
  | Gt => false
  end.

Definition item_le (p q : string * Z) : Prop := item_leb p q = true.

Global Instance item_le_dec p q : Decision (item_le p q).
Proof. unfold item_le. apply _. Defined.

(** [tuple(sorted(env_partial.items()))] *)
Definition frozen (env : Env) : list (string * Z) :=
  merge_sort item_le (map_to_list env).

Abbreviation MemoKey := (nat * list (string * Z))%type.

(** ** The reduced builder: class [ROBDD] *)

Module ROBDD.

(** The object's mutable fields.  [calls] and [computed] are ghost fields,
    absent from the program: [calls] lists the arguments [formula] was
    invoked with and [computed] the memo keys that got past the memo test,
    both newest first. *)
Record state : Type := mkState {
  nodes : list Node;
  unique_table : gmap (string * nat * nat) nat;
  memo : gmap MemoKey nat;
  calls : list Env;
  computed : list MemoKey
}.

(** [__init__] *)
Definition init : state :=
  mkState [terminal0; terminal1] ∅ ∅ [] [].

Definition log_computed (k : MemoKey) (s : state) : state :=
  mkState (nodes s) (unique_table s) (memo s) (calls s) (k :: computed s).

Definition log_call (env : Env) (s : state) : state :=
  mkState (nodes s) (unique_table s) (memo s) (env :: calls s) (computed s).

(** [self.memo[memo_key] = out] *)
Definition memo_set (k : MemoKey) (out : nat) (s : state) : state :=
  mkState (nodes s) (unique_table s) (<[k := out]> (memo s))
          (calls s) (computed s).

(** [mk] *)
Definition mk (v : string) (low high : nat) (s : state) : nat * state :=
  if decide (low = high) then (low, s)
  else
    let key := (v, low, high) in
    match unique_table s !! key with
    | Some uid => (uid, s)
    | None =>
        let nid := length (nodes s) in
        (nid, mkState (nodes s ++ [mkNode (Some v) low high])
                      (<[key := nid]> (unique_table s))
                      (memo s) (calls s) (computed s))
    end.

Section Build.

Variable formula : Env → exn + Z.
Variable var_order : list string.

(** [build], by recursion on a budget of nested calls. *)
Fixpoint build_fuel (fuel : nat) (idx : nat) (env_partial : Env) (s : state)
  : outcome nat * state :=
  match fuel with
  | O => (Fuel, s)
  | S fuel =>
    let frozen_env := frozen env_partial in
    let memo_key := (idx, frozen_env) in
    match memo s !! memo_key with
    | Some out => (Return out, s)
    | None =>
      let s := log_computed memo_key s in
      if decide (idx = length var_order) then
        let s := log_call env_partial s in
        match formula env_partial with
        | inl e => (Raise e, s)
        | inr val =>
            let out := terminal_of val in
            (Return out, memo_set memo_key out s)
        end
      else
        match var_order !! idx with
        | None => (Raise IndexError, s)
        | Some v =>
          let env0 := <[v := 0%Z]> env_partial in
          match build_fuel fuel (idx + 1) env0 s with
          | (Return low_id, s) =>
            let env1 := <[v := 1%Z]> env_partial in
            match build_fuel fuel (idx + 1) env1 s with
            | (Return high_id, s) =>
                let '(out, s) := mk v low_id high_id s in
                (Return out, memo_set memo_key out s)
            | (Raise e, s) => (Raise e, s)
            | (Fuel, s) => (Fuel, s)
            end
          | (Raise e, s) => (Raise e, s)
          | (Fuel, s) => (Fuel, s)
          end
        end
    end
  end.

(** A call at depth [idx] nests at most [len(var_order) - idx] further
    calls. *)
Definition build (idx : nat) (env_partial : Env) (s : state)
  : outcome nat * state :=
  build_fuel (S (length var_order - idx)) idx env_partial s.

(** The calls of [build] as a big-step relation, one rule per path through
    the body: [run idx env s r s'] when the call [build(idx, env)] on an
    object in state [s] ends with [r] and leaves the object in state [s']. *)
Inductive run : nat → Env → state → outcome nat → state → Prop :=
| run_hit idx env s out :
    memo s !! (idx, frozen env) = Some out →
    run idx env s (Return out) s
| run_leaf idx env s val :
    memo s !! (idx, frozen env) = None →
    idx = length var_order →
    formula env = inr val →
    run idx env s
        (Return (terminal_of val))
        (memo_set (idx, frozen env) (terminal_of val)
           (log_call env (log_computed (idx, frozen env) s)))
| run_leaf_raise idx env s e :
    memo s !! (idx, frozen env) = None →
    idx = length var_order →
    formula env = inl e →
    run idx env s (Raise e)
        (log_call env (log_computed (idx, frozen env) s))
| run_index idx env s :
    memo s !! (idx, frozen env) = None →
    idx ≠ length var_order →
    var_order !! idx = None →
    run idx env s (Raise IndexError) (log_computed (idx, frozen env) s)
| run_low_raise idx env s v e s1 :
    memo s !! (idx, frozen env) = None →
    idx ≠ length var_order →
    var_order !! idx = Some v →
    run (idx + 1) (<[v := 0%Z]> env)
        (log_computed (idx, frozen env) s) (Raise e) s1 →
    run idx env s (Raise e) s1
| run_high_raise idx env s v low_id s1 e s2 :
    memo s !! (idx, frozen env) = None →
    idx ≠ length var_order →
    var_order !! idx = Some v →
    run (idx + 1) (<[v := 0%Z]> env)
        (log_computed (idx, frozen env) s) (Return low_id) s1 →
    run (idx + 1) (<[v := 1%Z]> env) s1 (Raise e) s2 →
    run idx env s (Raise e) s2
| run_node idx env s v low_id s1 high_id s2 out s3 :
    memo s !! (idx, frozen env) = None →
    idx ≠ length var_order →
    var_order !! idx = Some v →
    run (idx + 1) (<[v := 0%Z]> env)
        (log_computed (idx, frozen env) s) (Return low_id) s1 →
    run (idx + 1) (<[v := 1%Z]> env) s1 (Return high_id) s2 →
    mk v low_id high_id s2 = (out, s3) →
    run idx env s (Return out) (memo_set (idx, frozen env) out s3).

End Build.

(** Well-formed stores: the two terminals come first; every later node
    tests a variable, has both children before it and distinct, and is the
    node the unique table records for its triple; the unique table and the
    memo table only hold what the store holds. *)
Record wf (s : state) : Prop := mkWf {
  wf_terminal0 : nodes s !! 0 = Some terminal0;
  wf_terminal1 : nodes s !! 1 = Some terminal1;
  wf_node : ∀ id n, nodes s !! id = Some n → 2 ≤ id →
      ∃ v, var n = Some v ∧ low n < id ∧ high n < id ∧ low n ≠ high n ∧
           unique_table s !! (v, low n, high n) = Some id;
  wf_unique : ∀ v l h id, unique_table s !! (v, l, h) = Some id →
      2 ≤ id ∧ nodes s !! id = Some (mkNode (Some v) l h);
  wf_memo : ∀ k id, memo s !! k = Some id → id < length (nodes s)
}.

End ROBDD.

(** ** The plain builder: class [BDD] *)

Module BDD.

(** The object's one mutable field, and the ghost field [calls] as in
    [ROBDD.state]. *)
Record state : Type := mkState {
  nodes : list Node;
  calls : list Env
}.

Definition init : state := mkState [terminal0; terminal1] [].

Definition log_call (env : Env) (s : state) : state :=
  mkState (nodes s) (env :: calls s).

(** [new_node] *)
Definition new_node (v : string) (low high : nat) (s : state) : nat * state :=
  let nid := length (nodes s) in
  (nid, mkState (nodes s ++ [mkNode (Some v) low high]) (calls s)).

Section Build.

Variable formula : Env → exn + Z.
Variable var_order : list string.

Fixpoint build_fuel (fuel : nat) (idx : nat) (env_partial : Env) (s : state)
  : outcome nat * state :=
  match fuel with
  | O => (Fuel, s)
  | S fuel =>
    if decide (idx = length var_order) then
      let s := log_call env_partial s in
      match formula env_partial with
      | inl e => (Raise e, s)
      | inr val => (Return (terminal_of val), s)
      end
    else
      match var_order !! idx with
      | None => (Raise IndexError, s)
      | Some v =>
        let env0 := <[v := 0%Z]> env_partial in
        match build_fuel fuel (idx + 1) env0 s with
        | (Return low_id, s) =>
          let env1 := <[v := 1%Z]> env_partial in
          match build_fuel fuel (idx + 1) env1 s with
          | (Return high_id, s) =>
              let '(out, s) := new_node v low_id high_id s in
              (Return out, s)
          | (Raise e, s) => (Raise e, s)
          | (Fuel, s) => (Fuel, s)
          end
        | (Raise e, s) => (Raise e, s)
        | (Fuel, s) => (Fuel, s)
        end
      end
  end.

Definition build (idx : nat) (env_partial : Env) (s : state)
  : outcome nat * state :=
  build_fuel (S (length var_order - idx)) idx env_partial s.

(** The calls of [build] as a big-step relation, as for [ROBDD.run]. *)
Inductive run : nat → Env → state → outcome nat → state → Prop :=
| run_leaf idx env s val :
    idx = length var_order →
    formula env = inr val →
    run idx env s (Return (terminal_of val)) (log_call env s)
| run_leaf_raise idx env s e :
    idx = length var_order →
    formula env = inl e →
    run idx env s (Raise e) (log_call env s)
| run_index idx env s :
    idx ≠ length var_order →
    var_order !! idx = None →
    run idx env s (Raise IndexError) s
| run_low_raise idx env s v e s1 :
    idx ≠ length var_order →
    var_order !! idx = Some v →
    run (idx + 1) (<[v := 0%Z]> env) s (Raise e) s1 →
    run idx env s (Raise e) s1
| run_high_raise idx env s v low_id s1 e s2 :
    idx ≠ length var_order →
    var_order !! idx = Some v →
    run (idx + 1) (<[v := 0%Z]> env) s (Return low_id) s1 →
    run (idx + 1) (<[v := 1%Z]> env) s1 (Raise e) s2 →
    run idx env s (Raise e) s2
| run_node idx env s v low_id s1 high_id s2 out s3 :
    idx ≠ length var_order →
    var_order !! idx = Some v →
    run (idx + 1) (<[v := 0%Z]> env) s (Return low_id) s1 →
    run (idx + 1) (<[v := 1%Z]> env) s1 (Return high_id) s2 →
    new_node v low_id high_id s2 = (out, s3) →
    run idx env s (Return out) s3.

End Build.

(** Well-formed stores: the two terminals first, then nodes that test a
    variable and have both children before them. *)
Record wf (s : state) : Prop := mkWf {
  wf_terminal0 : nodes s !! 0 = Some terminal0;
  wf_terminal1 : nodes s !! 1 = Some terminal1;
  wf_node : ∀ id n, nodes s !! id = Some n → 2 ≤ id →
      ∃ v, var n = Some v ∧ low n < id ∧ high n < id
}.

End BDD.

(** ** Reading a diagram *)

(** The programs build and print diagrams but never read one.  Following a
    diagram under an assignment is defined here as the specification words
    it: from a node, take the low edge when the node's variable is 0 and the
    high edge when it is 1, until a terminal (a node without variable) is
    reached; the result is the terminal's id, which is its value. *)
Fixpoint traverse_fuel (fuel : nat) (nodes : list Node) (A : Env) (id : nat)
  : option nat :=
  match fuel with
  | O => None
  | S fuel =>
    match nodes !! id with
    | None => None
    | Some n =>
      match var n with
      | None => Some id
      | Some v =>
        match A !! v with
        | Some 0%Z => traverse_fuel fuel nodes A (low n)
        | Some 1%Z => traverse_fuel fuel nodes A (high n)
        | _ => None
        end
      end
    end
  end.

Definition traverse (nodes : list Node) (A : Env) (id : nat) : option nat :=
  traverse_fuel (length nodes) nodes A id.

(** ** The configured runs *)

(** The orders of the [__main__] blocks: of [formula1_robdd.py] and
    [formula1_just_bdd.py], and of [formula2_just_bdd.py]. *)
Definition order1 : list string := ["a"; "c"; "b"; "d"]%string.
Definition order2 : list string := ["x1"; "x2"; "x3"; "x4"; "x5"]%string.

(** ** Assignments and what a node stands for *)

(** The assignments over the names [vs]: exactly those names are bound, each
    to 0 or 1. *)
Definition assignment_over (vs : list string) (A : Env) : Prop :=
  dom A = list_to_set vs ∧ ∀ v x, A !! v = Some x → x = 0%Z ∨ x = 1%Z.

(** The oracle returns on every assignment over the order. *)
Definition oracle_defined (formula : Env → exn + Z) (var_order : list string)
  : Prop :=
  ∀ A, assignment_over var_order A → ∃ val, formula A = inr val.

(** The oracle's contract: on every assignment over the order it returns 0
    or 1. *)
Definition oracle_contract (formula : Env → exn + Z)
    (var_order : list string) : Prop :=
  ∀ A, assignment_over var_order A →
    ∃ val, formula A = inr val ∧ (val = 0%Z ∨ val = 1%Z).

(** [env] with the names [vs] bound, in turn, to the values [A] gives
    them. *)
Fixpoint extend (vs : list string) (A : Env) (env : Env) : Env :=
  match vs with
  | [] => env
  | v :: vs => extend vs A (<[v := default 0%Z (A !! v)]> env)
  end.

(** [A] gives every name of [vs] the value 0 or 1. *)
Definition covers (vs : list string) (A : Env) : Prop :=
  ∀ v, v ∈ vs → A !! v = Some 0%Z ∨ A !! v = Some 1%Z.

(** The walk of [traverse_fuel] as a relation: [reaches nodes A id t] when
    following [A] from [id] ends at the terminal [t]. *)
Inductive reaches (nodes : list Node) (A : Env) : nat → nat → Prop :=
| reaches_terminal id n :
    nodes !! id = Some n → var n = None → reaches nodes A id id
| reaches_low id n v t :
    nodes !! id = Some n → var n = Some v → A !! v = Some 0%Z →
    reaches nodes A (low n) t → reaches nodes A id t
| reaches_high id n v t :
    nodes !! id = Some n → var n = Some v → A !! v = Some 1%Z →
    reaches nodes A (high n) t → reaches nodes A id t.

(** The node [id] stands for the subproblem [(idx, env)]: under every
    assignment of the order's names, the walk from [id] ends at the terminal
    of the oracle's value on [env] completed by the assignment. *)
Definition represents (formula : Env → exn + Z) (var_order : list string)
    (nodes : list Node) (idx : nat) (env : Env) (id : nat) : Prop :=
  ∀ A, covers var_order A →
    ∃ val, formula (extend (drop idx var_order) A env) = inr val ∧
           reaches nodes A id (terminal_of val).

Definition memo_sound (formula : Env → exn + Z) (var_order : list string)
    (s : ROBDD.state) : Prop :=
  ∀ idx env id, ROBDD.memo s !! (idx, frozen env) = Some id →
    represents formula var_order (ROBDD.nodes s) idx env id.

(** Every key computed at depth [idx] or below is in the memo table. *)
Definition computed_stored (idx : nat) (s : ROBDD.state) : Prop :=
  ∀ k, k ∈ ROBDD.computed s → idx ≤ k.1 → is_Some (ROBDD.memo s !! k).

(** The number of names an assignment binds to 1. *)
Definition ones (A : Env) : nat :=
  length (filter (λ p, p.2 = 1%Z) (map_to_list A)).

(** The assignment binding the names [vs] to the bits [bs], in turn. *)
Definition assign (vs : list string) (bs : list Z) : Env :=
  list_to_map (zip vs bs).

(** The bit vectors of length [n], and with them all the assignments over
    [vs]. *)
Fixpoint bit_vectors (n : nat) : list (list Z) :=
  match n with
  | O => [[]]
  | S n => (cons 0%Z <$> bit_vectors n) ++ (cons 1%Z <$> bit_vectors n)
  end.

Definition all_assignments (vs : list string) : list Env :=
  assign vs <$> bit_vectors (length vs).

(** Scenario A's two assignments. *)
Definition scenarioA_1 : Env := assign order1 [1; 0; 0; 0]%Z.
Definition scenarioA_0 : Env := assign order1 [0; 1; 0; 0]%Z.

(** An order that names [a] twice. *)
Definition order_dup : list string := ["a"; "a"; "c"; "b"; "d"]%string.

(** Binomial coefficients, by Pascal's rule. *)
Fixpoint choose (n k : nat) : nat :=
  match n, k with
  | _, O => 1
  | O, S _ => 0
  | S n', S k' => choose n' k' + choose n' k
  end.

(** Whether the oracle returned 1. *)
Definition returns_one (r : exn + Z) : bool :=
  match r with
  | inr 1%Z => true
  | _ => false
  end.

(** What a build from [build(0, {})] on a fresh object leaves behind: its
    outcome, its node store, and the ghost logs. *)
Definition robdd_root formula var_order : outcome nat :=
  (ROBDD.build formula var_order 0 ∅ ROBDD.init).1.
Definition robdd_store formula var_order : list Node :=
  ROBDD.nodes (ROBDD.build formula var_order 0 ∅ ROBDD.init).2.
Definition robdd_calls formula var_order : list Env :=
  ROBDD.calls (ROBDD.build formula var_order 0 ∅ ROBDD.init).2.
Definition robdd_computed formula var_order : list MemoKey :=
  ROBDD.computed (ROBDD.build formula var_order 0 ∅ ROBDD.init).2.

Definition bdd_root formula var_order : outcome nat :=
  (BDD.build formula var_order 0 ∅ BDD.init).1.
Definition bdd_store formula var_order : list Node :=
  BDD.nodes (BDD.build formula var_order 0 ∅ BDD.init).2.
Definition bdd_calls formula var_order : list Env :=
  BDD.calls (BDD.build formula var_order 0 ∅ BDD.init).2.

(** ** The shape of a diagram *)

(** Every variable tested at node [c] stands at position [k] or later in
    the order [vs] (terminals test nothing). *)
Definition above (vs : list string) (nodes : list Node) (k c : nat) : Prop :=
  ∀ nc w, nodes !! c = Some nc → var nc = Some w →
    ∃ q, k ≤ q ∧ vs !! q = Some w.

(** Every node tests a variable of the order, at a position before the
    positions of what its children test. *)
Definition ordered (vs : list string) (nodes : list Node) : Prop :=
  ∀ id n v, nodes !! id = Some n → var n = Some v →
    ∃ p, vs !! p = Some v ∧
         above vs nodes (S p) (low n) ∧ above vs nodes (S p) (high n).

(** What the memo table holds for a call at depth [idx] tests variables
    from position [idx] on. *)
Definition memo_above (vs : list string) (s : ROBDD.state) : Prop :=
  ∀ idx key id, ROBDD.memo s !! (idx, key) = Some id →
    above vs (ROBDD.nodes s) idx id.

(** [descends nodes id c]: the node [c] is [id] or is found from [id] along
    low and high edges. *)
Inductive descends (nodes : list Node) : nat → nat → Prop :=
| descends_here id : descends nodes id id
| descends_low id n c :
    nodes !! id = Some n → var n ≠ None →
    descends nodes (low n) c → descends nodes id c
| descends_high id n c :
    nodes !! id = Some n → var n ≠ None →
    descends nodes (high n) c → descends nodes id c.

(** The nodes [i] and [j] send every assignment over [vs] to the same
    terminal. *)
Definition same_function (vs : list string) (nodes : list Node) (i j : nat)
  : Prop :=
  ∀ A, assignment_over vs A → traverse nodes A i = traverse nodes A j.

(** ** The exporters: [print_nodes_edges] and [write_dot] *)

(** The double quote and the line feed. *)
Definition dquote : string := String "034"%char EmptyString.
Definition newline : string := String "010"%char EmptyString.

(** [f"{n.var}"]: a name prints as itself, [None] as [None]. *)
Definition fmt_var (o : option string) : string :=
  match o with
  | Some v => v
  | None => "None"
  end.

(** The loops [for nid in range(2, len(self.nodes)): n = self.nodes[nid]],
    collecting what the body appends or prints for each [nid].  The lookup
    cannot fail inside the range. *)
Definition node_lines (nodes : list Node) (body : nat → Node → list string)
  : list string :=
  flat_map (λ nid, match nodes !! nid with
                   | Some n => body nid n
                   | None => []
                   end)
           (seq 2 (length nodes - 2)).

(** The lines of [write_dot]. *)
Definition decl_line (nid : nat) (n : Node) : string :=
  "  " +:+ pretty nid +:+ " [label=" +:+ dquote +:+ fmt_var (var n)
       +:+ dquote +:+ "];".

Definition low_edge_line (nid : nat) (n : Node) : string :=
  "  " +:+ pretty nid +:+ " -> " +:+ pretty (low n)
       +:+ " [label=" +:+ dquote +:+ "0" +:+ dquote +:+ ",style=dashed];".

Definition high_edge_line (nid : nat) (n : Node) : string :=
  "  " +:+ pretty nid +:+ " -> " +:+ pretty (high n)
       +:+ " [label=" +:+ dquote +:+ "1" +:+ dquote +:+ "];".

Definition root_line (root : nat) : string :=
  "  root -> " +:+ pretty root +:+ ";".

Definition dot_header (name : string) : list string :=
  [ "digraph " +:+ name +:+ " {";
    "  rankdir=TB;";
    "  0 [shape=box,label=" +:+ dquote +:+ "0" +:+ dquote +:+ "];";
    "  1 [shape=box,label=" +:+ dquote +:+ "1" +:+ dquote +:+ "];" ].

Definition dot_footer (root : nat) : list string :=
  [ "  root [shape=plaintext,label=" +:+ dquote +:+ "root" +:+ dquote
      +:+ "];";
    root_line root;
    "}" ].

(** The list [lines] that [write_dot] builds; [name] is [ROBDD] in
    [formula1_robdd.py] and [BDD] in the two other files. *)
Definition dot_lines (name : string) (nodes : list Node) (root : nat)
  : list string :=
  dot_header name
  ++ node_lines nodes (λ nid n, [decl_line nid n])
  ++ node_lines nodes (λ nid n, [low_edge_line nid n; high_edge_line nid n])
  ++ dot_footer root.

(** [write_dot]: the file written, as its name and content, and the lines
    printed.  A failure of [open] or [write] is not modelled. *)
Definition write_dot (name : string) (nodes : list Node) (root : nat)
    (filename : string) : (string * string) * list string :=
  ((filename, String.concat newline (dot_lines name nodes root)),
   [EmptyString; "Wrote " +:+ filename]).

(** The lines of [print_nodes_edges]. *)
Definition node_report_line (nid : nat) (n : Node) : string :=
  "  " +:+ pretty nid +:+ ": var=" +:+ fmt_var (var n)
       +:+ ", low=" +:+ pretty (low n) +:+ ", high=" +:+ pretty (high n).

Definition low_report_line (nid : nat) (n : Node) : string :=
  "  " +:+ pretty nid +:+ " --0--> " +:+ pretty (low n).

Definition high_report_line (nid : nat) (n : Node) : string :=
  "  " +:+ pretty nid +:+ " --1--> " +:+ pretty (high n).

Section Report.

(** Python's [repr] of a string, which [print] uses for the items of
    [self.var_order]; a builtin, taken as a parameter. *)
Variable repr_str : string → string.

(** [str] of a list of strings. *)
Definition str_list (vs : list string) : string :=
  "[" +:+ String.concat ", " (repr_str <$> vs) +:+ "]".

(** [print_nodes_edges]: the lines printed; [title] is [ROBDD] in
    [formula1_robdd.py] and [BDD (not reduced)] in the two other files. *)
Definition print_nodes_edges (title : string) (var_order : list string)
    (nodes : list Node) (root : nat) : list string :=
  [ title;
    "Variable order: " +:+ str_list var_order;
    "Root id: " +:+ pretty root;
    EmptyString;
    "NODES:";
    "  0: TERMINAL 0";
    "  1: TERMINAL 1" ]
  ++ node_lines nodes (λ nid n, [node_report_line nid n])
  ++ [ EmptyString; "EDGES:" ]
  ++ node_lines nodes
       (λ nid n, [low_report_line nid n; high_report_line nid n]).

End Report.

(** The stores whose nodes from id 2 on all test a variable. *)
Definition decisions_from_2 (nodes : list Node) : Prop :=
  ∀ id n, nodes !! id = Some n → 2 ≤ id → var n ≠ None.

(** The id [c] is drawn in the lines [lines] of [write_dot]: it is one of
    the two boxed terminals or some line declares it. *)
Definition declared (lines : list string) (c : nat) : Prop :=
  c < 2 ∨ ∃ n, decl_line c n ∈ lines.

(** The truth value an assignment gives a name: true when bound to 1. *)
Definition bit (A : Env) (v : string) : bool :=
  bool_decide (A !! v = Some 1%Z).

(** The keys the two formulas look up, in the order they do. *)
Definition keys1 : list string := ["a"; "b"; "c"; "d"]%string.
Definition keys2 : list string := ["x1"; "x2"; "x3"; "x4"; "x5"]%string.

(** The first key of [ks] that [env] does not bind. *)
Definition first_missing (ks : list string) (env : Env) : option string :=
  head (filter (λ k, env !! k = None) ks).

(** Every decision node was made for some subproblem: at a depth [idx]
    where the order has the node's variable and for a prefix assignment
    [env], its low and high child stand for the subproblems with the
    variable set to 0 and to 1. *)
Definition node_origin (formula : Env → exn + Z) (var_order : list string)
    (nodes : list Node) : Prop :=
  ∀ id n v, nodes !! id = Some n → var n = Some v →
    ∃ idx env,
      var_order !! idx = Some v ∧
      assignment_over (take idx var_order) env ∧
      represents formula var_order nodes (idx + 1) (<[v:=0%Z]> env) (low n) ∧
      represents formula var_order nodes (idx + 1) (<[v:=1%Z]> env) (high n).

(** Whether the character [c] occurs in [s]; the strings without a line
    feed. *)
Fixpoint string_has (c : ascii) (s : string) : bool :=
  match s with
  | EmptyString => false
  | String a s => bool_decide (a = c) || string_has c s
  end.

Definition newline_free (s : string) : Prop :=
  string_has "010"%char s = false.

(** The stores whose variable names hold no line feed. *)
Definition names_newline_free (nodes : list Node) : Prop :=
  ∀ id n v, nodes !! id = Some n → var n = Some v → newline_free v.

(** Membership in a list of literals, by evaluation. *)
Ltac solve_elem_of := apply (bool_decide_unpack _); vm_compute; exact I.

(** * Properties *)

(** ** Memo keys determine the assignment *)

Lemma frozen_inj (e1 e2 : Env) : frozen e1 = frozen e2 → e1 = e2.
Proof.
  unfold frozen. intros E. apply map_to_list_inj.
  rewrite <- (merge_sort_Permutation item_le (map_to_list e1)).
  rewrite <- (merge_sort_Permutation item_le (map_to_list e2)).
  by rewrite E.
Qed.

(** ** The reduced builder runs as [ROBDD.run] says *)

Section ROBDD_run.

Variable formula : Env → exn + Z.
Variable var_order : list string.

Lemma robdd_build_fuel_run fuel : ∀ idx env s r s',
  ROBDD.build_fuel formula var_order fuel idx env s = (r, s') →
  r ≠ Fuel →
  ROBDD.run formula var_order idx env s r s'.
Proof.
  induction fuel as [|fuel IH]; intros idx env s r s'; simpl.
  { intros [= <- <-] ?. done. }
  destruct (ROBDD.memo s !! (idx, frozen env)) as [out|] eqn:Hm.
  { intros [= <- <-] _. by constructor. }
  case_decide as Hidx.
  { destruct (formula env) as [e|val] eqn:Hf; intros [= <- <-] _.
    - by apply ROBDD.run_leaf_raise.
    - by apply ROBDD.run_leaf. }
  destruct (var_order !! idx) as [v|] eqn:Hv.
  2:{ intros [= <- <-] _. by apply ROBDD.run_index. }
  destruct (ROBDD.build_fuel _ _ fuel (idx + 1) (<[v:=0%Z]> env) _)
    as [[low_id|e|] s1] eqn:H0.
  - destruct (ROBDD.build_fuel _ _ fuel (idx + 1) (<[v:=1%Z]> env) s1)
      as [[high_id|e|] s2] eqn:H1.
    + destruct (ROBDD.mk v low_id high_id s2) as [out s3] eqn:Hmk.
      intros [= <- <-] _.
      eapply ROBDD.run_node; eauto.
    + intros [= <- <-] _. eapply ROBDD.run_high_raise; eauto.
    + intros [= <- <-] ?. done.
  - intros [= <- <-] _. eapply ROBDD.run_low_raise; eauto.
  - intros [= <- <-] ?. done.
Qed.

(** The budget [build] starts with is never used up. *)
Lemma robdd_build_fuel_enough fuel : ∀ idx env s,
  length var_order - idx < fuel →
  (ROBDD.build_fuel formula var_order fuel idx env s).1 ≠ Fuel.
Proof.
  induction fuel as [|fuel IH]; intros idx env s Hlt; simpl; [lia|].
  destruct (ROBDD.memo s !! (idx, frozen env)); [done|].
  case_decide as Hidx.
  { by destruct (formula env). }
  destruct (var_order !! idx) as [v|] eqn:Hv; [|done].
  apply lookup_lt_Some in Hv.
  pose proof (IH (idx + 1) (<[v:=0%Z]> env)
                (ROBDD.log_computed (idx, frozen env) s)) as IH0.
  destruct (ROBDD.build_fuel _ _ fuel (idx + 1) (<[v:=0%Z]> env) _)
    as [[low_id|e|] s1]; simpl in *; [|done|apply IH0; lia].
  pose proof (IH (idx + 1) (<[v:=1%Z]> env) s1) as IH1.
  destruct (ROBDD.build_fuel _ _ fuel (idx + 1) (<[v:=1%Z]> env) s1)
    as [[high_id|e|] s2]; simpl in *; [|done|apply IH1; lia].
  by destruct (ROBDD.mk v low_id high_id s2).
Qed.

Lemma robdd_build_run idx env s :
  ROBDD.run formula var_order idx env s
    (ROBDD.build formula var_order idx env s).1
    (ROBDD.build formula var_order idx env s).2.
Proof.
  unfold ROBDD.build.
  eapply robdd_build_fuel_run; [apply surjective_pairing|].
  apply robdd_build_fuel_enough. lia.
Qed.

End ROBDD_run.

(** ** The reduced store stays well formed *)

Lemma robdd_init_wf : ROBDD.wf ROBDD.init.
Proof.
  split; simpl; try done.
  - intros [|[|id]] n Hn Hid; [lia|lia|done].
Qed.

Lemma robdd_wf_log_computed k s :
  ROBDD.wf s → ROBDD.wf (ROBDD.log_computed k s).
Proof. intros [? ? ? ? ?]. by split. Qed.

Lemma robdd_wf_log_call env s :
  ROBDD.wf s → ROBDD.wf (ROBDD.log_call env s).
Proof. intros [? ? ? ? ?]. by split. Qed.

Lemma robdd_wf_memo_set k out s :
  ROBDD.wf s → out < length (ROBDD.nodes s) →
  ROBDD.wf (ROBDD.memo_set k out s).
Proof.
  intros [? ? ? ? Hmemo] Hout. split; simpl; try done.
  intros k' id. rewrite lookup_insert. case_decide.
  - by intros [= <-].
  - apply Hmemo.
Qed.

(** What [mk] does to the store: nothing, or one node appended. *)
Lemma robdd_mk_nodes v l h s out s' :
  ROBDD.mk v l h s = (out, s') →
  (ROBDD.nodes s' = ROBDD.nodes s ∨
   ROBDD.nodes s' = ROBDD.nodes s ++ [mkNode (Some v) l h]) ∧
  ROBDD.memo s' = ROBDD.memo s ∧
  ROBDD.calls s' = ROBDD.calls s ∧
  ROBDD.computed s' = ROBDD.computed s.
Proof.
  unfold ROBDD.mk. case_decide; [by intros [= <- <-]; auto|].
  destruct (ROBDD.unique_table s !! (v, l, h)); intros [= <- <-]; auto.
Qed.

Lemma robdd_mk_wf v l h s out s' :
  ROBDD.wf s →
  l < length (ROBDD.nodes s) → h < length (ROBDD.nodes s) →
  ROBDD.mk v l h s = (out, s') →
  ROBDD.wf s' ∧ out < length (ROBDD.nodes s').
Proof.
  intros Hwf Hl Hh. unfold ROBDD.mk. case_decide as Hlh.
  { by intros [= <- <-]. }
  destruct (ROBDD.unique_table s !! (v, l, h)) as [uid|] eqn:Hu.
  { intros [= <- <-]. split; [done|].
    apply (ROBDD.wf_unique _ Hwf) in Hu as [_ Hu].
    by apply lookup_lt_Some in Hu. }
  intros [= <- <-]. destruct Hwf as [H0 H1 Hn Hut Hmemo].
  split; [split|]; simpl.
  - by apply lookup_app_l_Some.
  - by apply lookup_app_l_Some.
  - intros id n Hid Hge.
    destruct (decide (id < length (ROBDD.nodes s))) as [Hlt|Hnlt].
    + rewrite lookup_app_l in Hid by done.
      destruct (Hn id n Hid Hge) as (w & Hw & ? & ? & ? & Hut').
      exists w. repeat split; try done.
      rewrite lookup_insert_ne; [done|].
      intros [= -> E1 E2]. rewrite E1, E2 in Hu. congruence.
    + rewrite lookup_app_r in Hid by lia.
      destruct (id - length (ROBDD.nodes s)) as [|k] eqn:Hk; [|done].
      injection Hid as <-. simpl. assert (id = length (ROBDD.nodes s)) as -> by lia.
      exists v. repeat split; try done.
      apply lookup_insert_eq.
  - intros w l' h' id. rewrite lookup_insert. case_decide as Hkey.
    + intros [= <-]. injection Hkey as -> -> ->.
      split; [apply lookup_lt_Some in H1; lia|].
      rewrite lookup_app_r by lia. by rewrite Nat.sub_diag.
    + intros Hut'. apply Hut in Hut' as [? Hid]. split; [done|].
      by apply lookup_app_l_Some.
  - intros k id Hk. apply Hmemo in Hk. rewrite length_app. simpl. lia.
  - rewrite length_app. simpl. lia.
Qed.

Section ROBDD_wf.

Variable formula : Env → exn + Z.
Variable var_order : list string.

(** A call keeps the store well formed, only appends to it, and returns the
    id of a stored node. *)
Lemma robdd_run_wf idx env s r s' :
  ROBDD.run formula var_order idx env s r s' →
  ROBDD.wf s →
  ROBDD.wf s' ∧
  (∃ new, ROBDD.nodes s' = ROBDD.nodes s ++ new) ∧
  (∀ id, r = Return id → id < length (ROBDD.nodes s')).
Proof.
  induction 1 as
    [idx env s out Hm
    |idx env s val Hm Hidx Hf
    |idx env s e Hm Hidx Hf
    |idx env s Hm Hidx Hv
    |idx env s v e s1 Hm Hidx Hv _ IH0
    |idx env s v low_id s1 e s2 Hm Hidx Hv _ IH0 _ IH1
    |idx env s v low_id s1 high_id s2 out s3 Hm Hidx Hv _ IH0 _ IH1 Hmk];
    intros Hwf.
  - split_and!; [done|by exists []; rewrite app_nil_r|].
    intros id [= <-]. by eapply ROBDD.wf_memo.
  - assert (terminal_of val < length (ROBDD.nodes s)) as Hlt.
    { pose proof (ROBDD.wf_terminal1 _ Hwf) as H1%lookup_lt_Some.
      unfold terminal_of. case_decide; lia. }
    split_and!.
    + apply robdd_wf_memo_set; simpl; [|done].
      by apply robdd_wf_log_call, robdd_wf_log_computed.
    + exists []. by rewrite app_nil_r.
    + intros id [= <-]. done.
  - split_and!; [|by exists []; rewrite app_nil_r|done].
    by apply robdd_wf_log_call, robdd_wf_log_computed.
  - split_and!; [|by exists []; rewrite app_nil_r|done].
    by apply robdd_wf_log_computed.
  - destruct IH0 as (? & ? & ?); [by apply robdd_wf_log_computed|].
    split_and!; done.
  - destruct IH0 as (Hwf1 & [n1 Hn1] & _);
      [by apply robdd_wf_log_computed|].
    destruct (IH1 Hwf1) as (Hwf2 & [n2 Hn2] & _).
    split_and!; [done| |done].
    exists (n1 ++ n2). rewrite Hn2, Hn1. simpl. by rewrite app_assoc.
  - destruct IH0 as (Hwf1 & [n1 Hn1] & Hl);
      [by apply robdd_wf_log_computed|].
    destruct (IH1 Hwf1) as (Hwf2 & [n2 Hn2] & Hh).
    specialize (Hl _ eq_refl). specialize (Hh _ eq_refl).
    assert (low_id < length (ROBDD.nodes s2)) as Hl2.
    { rewrite Hn2, length_app. lia. }
    destruct (robdd_mk_wf _ _ _ _ _ _ Hwf2 Hl2 Hh Hmk) as [Hwf3 Hout].
    destruct (robdd_mk_nodes _ _ _ _ _ _ Hmk) as (Hn3 & _).
    split_and!.
    + by apply robdd_wf_memo_set.
    + simpl in *. destruct Hn3 as [->| ->]; rewrite Hn2, Hn1.
      * exists (n1 ++ n2). by rewrite app_assoc.
      * eexists (n1 ++ n2 ++ [_]). by rewrite !app_assoc.
    + intros id [= <-]. done.
Qed.

End ROBDD_wf.

(** ** What the nodes of a reduced store stand for *)

Lemma reaches_app nodes new A id t :
  reaches nodes A id t → reaches (nodes ++ new) A id t.
Proof.
  induction 1 as [id n Hn Hv|id n v t Hn Hv HA _ IH|id n v t Hn Hv HA _ IH].
  - eapply reaches_terminal; [by apply lookup_app_l_Some|done].
  - eapply reaches_low; [by apply lookup_app_l_Some|done..].
  - eapply reaches_high; [by apply lookup_app_l_Some|done..].
Qed.

Lemma represents_app formula var_order nodes new idx env id :
  represents formula var_order nodes idx env id →
  represents formula var_order (nodes ++ new) idx env id.
Proof.
  intros Hr A HA. destruct (Hr A HA) as (val & Hf & Hreach).
  exists val. split; [done|]. by apply reaches_app.
Qed.

(** The walk as a relation and the walk as a function agree on stores whose
    nodes have their children before them. *)
Lemma reaches_traverse_fuel nodes A id t :
  (∀ i n, nodes !! i = Some n → var n ≠ None → low n < i ∧ high n < i) →
  reaches nodes A id t →
  ∀ fuel, id < fuel → traverse_fuel fuel nodes A id = Some t.
Proof.
  intros Hdec.
  induction 1 as [id n Hn Hv|id n v t Hn Hv HA _ IH|id n v t Hn Hv HA _ IH];
    intros [|fuel] Hlt; try lia; simpl; rewrite Hn, Hv; [done|..];
    rewrite HA; apply IH;
    destruct (Hdec id n Hn) as [? ?]; [by rewrite Hv|lia | by rewrite Hv|lia].
Qed.

Lemma reaches_traverse nodes A id t :
  (∀ i n, nodes !! i = Some n → var n ≠ None → low n < i ∧ high n < i) →
  reaches nodes A id t →
  traverse nodes A id = Some t.
Proof.
  intros Hdec Hr. apply reaches_traverse_fuel; [done..|].
  destruct Hr as [? ? Hn|? ? ? ? Hn|? ? ? ? Hn]; by apply lookup_lt_Some in Hn.
Qed.

Lemma robdd_wf_children s :
  ROBDD.wf s →
  ∀ i n, ROBDD.nodes s !! i = Some n → var n ≠ None → low n < i ∧ high n < i.
Proof.
  intros Hwf i n Hn Hv.
  destruct (decide (2 ≤ i)) as [Hge|Hlt].
  - destruct (ROBDD.wf_node _ Hwf i n Hn Hge) as (v & _ & ? & ? & _). done.
  - destruct i as [|[|i]]; [| |lia].
    + rewrite (ROBDD.wf_terminal0 _ Hwf) in Hn. by injection Hn as <-.
    + rewrite (ROBDD.wf_terminal1 _ Hwf) in Hn. by injection Hn as <-.
Qed.

Section ROBDD_sound.

Variable formula : Env → exn + Z.
Variable var_order : list string.

Lemma robdd_sound_memo_set idx env out s :
  memo_sound formula var_order s →
  represents formula var_order (ROBDD.nodes s) idx env out →
  memo_sound formula var_order (ROBDD.memo_set (idx, frozen env) out s).
Proof.
  intros Hs Hr idx' env' id. simpl. rewrite lookup_insert. case_decide as Hk.
  - intros [= <-]. injection Hk as <- ->%frozen_inj. done.
  - apply Hs.
Qed.

(** Rules 1 and 2 and the allocation of [mk] all give a node that stands
    for the Shannon expansion on [v]. *)
Lemma robdd_mk_represents idx env v low_id high_id s out s' :
  ROBDD.wf s →
  var_order !! idx = Some v →
  represents formula var_order (ROBDD.nodes s) (idx + 1) (<[v:=0%Z]> env) low_id →
  represents formula var_order (ROBDD.nodes s) (idx + 1) (<[v:=1%Z]> env) high_id →
  ROBDD.mk v low_id high_id s = (out, s') →
  represents formula var_order (ROBDD.nodes s') idx env out.
Proof.
  intros Hwf Hv Hlow Hhigh Hmk A HA.
  rewrite (drop_S _ _ _ Hv). simpl. rewrite <- Nat.add_1_r.
  assert (v ∈ var_order) as Hin by (by eapply list_elem_of_lookup_2).
  specialize (Hlow A HA). specialize (Hhigh A HA).
  revert Hmk. unfold ROBDD.mk. case_decide as Hlh.
  { intros [= <- <-]. subst high_id.
    destruct (HA v Hin) as [-> | ->]; simpl; done. }
  assert (∀ nodes id,
    nodes !! id = Some (mkNode (Some v) low_id high_id) →
    (∀ t, reaches (ROBDD.nodes s) A low_id t → reaches nodes A low_id t) →
    (∀ t, reaches (ROBDD.nodes s) A high_id t → reaches nodes A high_id t) →
    ∃ val, formula (extend (drop (idx + 1) var_order) A
                      (<[v:=default 0%Z (A !! v)]> env)) = inr val ∧
           reaches nodes A id (terminal_of val)) as Hstep.
  { intros nodes id Hid Hl Hh.
    destruct (HA v Hin) as [HAv|HAv]; rewrite HAv; simpl.
    - destruct Hlow as (val & Hf & Hr). exists val. split; [done|].
      eapply reaches_low; [exact Hid|done|done|]. simpl. by apply Hl.
    - destruct Hhigh as (val & Hf & Hr). exists val. split; [done|].
      eapply reaches_high; [exact Hid|done|done|]. simpl. by apply Hh. }
  destruct (ROBDD.unique_table s !! (v, low_id, high_id)) as [uid|] eqn:Hu.
  - intros [= <- <-].
    apply (ROBDD.wf_unique _ Hwf) in Hu as [_ Hu].
    by apply Hstep.
  - intros [= <- <-]. simpl. apply Hstep.
    + rewrite lookup_app_r by lia. by rewrite Nat.sub_diag.
    + intros t. apply reaches_app.
    + intros t. apply reaches_app.
Qed.

(** A call keeps the memo table sound, and the node it returns stands for
    the subproblem it was called on. *)
Lemma robdd_run_sound idx env s r s' :
  ROBDD.run formula var_order idx env s r s' →
  ROBDD.wf s →
  memo_sound formula var_order s →
  memo_sound formula var_order s' ∧
  (∀ id, r = Return id →
     represents formula var_order (ROBDD.nodes s') idx env id).
Proof.
  induction 1 as
    [idx env s out Hm
    |idx env s val Hm Hidx Hf
    |idx env s e Hm Hidx Hf
    |idx env s Hm Hidx Hv
    |idx env s v e s1 Hm Hidx Hv Hrun0 IH0
    |idx env s v low_id s1 e s2 Hm Hidx Hv Hrun0 IH0 Hrun1 IH1
    |idx env s v low_id s1 high_id s2 out s3 Hm Hidx Hv Hrun0 IH0 Hrun1 IH1 Hmk];
    intros Hwf Hs.
  - split; [done|]. intros id [= <-]. by apply Hs.
  - assert (represents formula var_order (ROBDD.nodes s) idx env
              (terminal_of val)) as Hr.
    { intros A HA. exists val. subst idx. rewrite drop_all. simpl.
      split; [done|]. unfold terminal_of. case_decide.
      - eapply reaches_terminal; [apply (ROBDD.wf_terminal1 _ Hwf)|done].
      - eapply reaches_terminal; [apply (ROBDD.wf_terminal0 _ Hwf)|done]. }
    split; [|by intros id [= <-]].
    by apply (robdd_sound_memo_set idx env (terminal_of val)
                (ROBDD.log_call env (ROBDD.log_computed (idx, frozen env) s))).
  - done.
  - done.
  - destruct IH0 as [? _]; [by apply robdd_wf_log_computed|done|done].
  - destruct IH0 as [Hs1 _]; [by apply robdd_wf_log_computed|done|].
    apply robdd_run_wf in Hrun0 as (Hwf1 & _); [|by apply robdd_wf_log_computed].
    destruct (IH1 Hwf1 Hs1) as [? _]. done.
  - destruct IH0 as [Hs1 Hl]; [by apply robdd_wf_log_computed|done|].
    apply robdd_run_wf in Hrun0 as (Hwf1 & _ & Hl1);
      [|by apply robdd_wf_log_computed].
    destruct (IH1 Hwf1 Hs1) as [Hs2 Hh].
    apply robdd_run_wf in Hrun1 as (Hwf2 & [n2 Hn2] & Hh2); [|done].
    specialize (Hl _ eq_refl). specialize (Hh _ eq_refl).
    assert (represents formula var_order (ROBDD.nodes s3) idx env out) as Hr.
    { eapply robdd_mk_represents; [exact Hwf2|exact Hv| |exact Hh|exact Hmk].
      rewrite Hn2. by apply represents_app. }
    destruct (robdd_mk_nodes _ _ _ _ _ _ Hmk) as (Hn3 & Hm3 & _).
    split; [|by intros id [= <-]].
    apply robdd_sound_memo_set; [|done].
    intros idx' env' id. rewrite Hm3. intros Hk%Hs2.
    destruct Hn3 as [->| ->]; [done|by apply represents_app].
Qed.

End ROBDD_sound.

(** ** Assignments met during a build *)

Lemma assignment_over_empty : assignment_over [] ∅.
Proof. split; [set_solver|]. intros v x. by rewrite lookup_empty. Qed.

Lemma assignment_over_insert (vs : list string) idx v (b : Z) (env : Env) :
  vs !! idx = Some v → b = 0%Z ∨ b = 1%Z →
  assignment_over (take idx vs) env →
  assignment_over (take (idx + 1) vs) (<[v:=b]> env).
Proof.
  intros Hv Hb [Hdom Hbits]. split.
  - rewrite Nat.add_1_r, (take_S_r _ _ _ Hv), dom_insert_L, Hdom.
    rewrite list_to_set_app_L. set_solver.
  - intros w x. rewrite lookup_insert. case_decide; [by intros [= <-]|].
    apply Hbits.
Qed.

Lemma pow2_split (n idx : nat) :
  idx < n → 2 ^ (n - idx) = 2 ^ (n - (idx + 1)) + 2 ^ (n - (idx + 1)).
Proof.
  intros Hlt. replace (n - idx) with (S (n - (idx + 1))) by lia.
  rewrite Nat.pow_succ_r'. lia.
Qed.

Section ROBDD_calls.

Variable formula : Env → exn + Z.
Variable var_order : list string.

(** From a prefix assignment at depth [idx], the oracle is only invoked on
    assignments over the whole order, at most [2^(n - idx)] times, and the
    only exception a call can raise is one the oracle raised on such an
    assignment. *)
Lemma robdd_run_calls idx env s r s' :
  ROBDD.run formula var_order idx env s r s' →
  idx ≤ length var_order →
  assignment_over (take idx var_order) env →
  (∃ new, ROBDD.calls s' = new ++ ROBDD.calls s ∧
          Forall (assignment_over var_order) new ∧
          length new ≤ 2 ^ (length var_order - idx)) ∧
  (∀ e, r = Raise e →
     ∃ A, assignment_over var_order A ∧ formula A = inl e).
Proof.
  induction 1 as
    [idx env s out Hm
    |idx env s val Hm Hidx Hf
    |idx env s e Hm Hidx Hf
    |idx env s Hm Hidx Hv
    |idx env s v e s1 Hm Hidx Hv _ IH0
    |idx env s v low_id s1 e s2 Hm Hidx Hv _ IH0 _ IH1
    |idx env s v low_id s1 high_id s2 out s3 Hm Hidx Hv _ IH0 _ IH1 Hmk];
    intros Hle Henv.
  - split; [|done]. exists []. split_and!; [done|done|simpl; lia].
  - subst idx. rewrite firstn_all in Henv. split; [|done].
    exists [env]. split_and!; [done|by constructor|].
    rewrite Nat.sub_diag. simpl. lia.
  - subst idx. rewrite firstn_all in Henv. split.
    + exists [env]. split_and!; [done|by constructor|].
      rewrite Nat.sub_diag. simpl. lia.
    + intros e' [= <-]. by exists env.
  - apply lookup_ge_None in Hv. lia.
  - pose proof (lookup_lt_Some _ _ _ Hv) as Hlt.
    destruct IH0 as [(new & Hc & Hall & Hlen) Hraise]; [lia| |].
    { eapply assignment_over_insert; eauto. }
    split; [|done]. exists new. split_and!; [done..|].
    rewrite (pow2_split _ idx) by done. lia.
  - pose proof (lookup_lt_Some _ _ _ Hv) as Hlt.
    destruct IH0 as [(n0 & Hc0 & Hall0 & Hlen0) _]; [lia| |].
    { eapply assignment_over_insert; eauto. }
    destruct IH1 as [(n1 & Hc1 & Hall1 & Hlen1) Hraise]; [lia| |].
    { eapply assignment_over_insert; eauto. }
    split; [|done]. exists (n1 ++ n0). split_and!.
    + rewrite Hc1, Hc0. simpl. by rewrite app_assoc.
    + by apply Forall_app.
    + rewrite length_app, (pow2_split _ idx) by done. lia.
  - pose proof (lookup_lt_Some _ _ _ Hv) as Hlt.
    destruct IH0 as [(n0 & Hc0 & Hall0 & Hlen0) _]; [lia| |].
    { eapply assignment_over_insert; eauto. }
    destruct IH1 as [(n1 & Hc1 & Hall1 & Hlen1) _]; [lia| |].
    { eapply assignment_over_insert; eauto. }
    destruct (robdd_mk_nodes _ _ _ _ _ _ Hmk) as (_ & _ & Hc3 & _).
    split; [|done]. exists (n1 ++ n0). split_and!.
    + simpl. rewrite Hc3, Hc1, Hc0. simpl. by rewrite app_assoc.
    + by apply Forall_app.
    + rewrite length_app, (pow2_split _ idx) by done. lia.
Qed.

(** A call at depth [idx] appends fewer than [2^(n - idx)] nodes. *)
Lemma robdd_run_count idx env s r s' :
  ROBDD.run formula var_order idx env s r s' →
  length (ROBDD.nodes s') + 1 ≤
    length (ROBDD.nodes s) + 2 ^ (length var_order - idx).
Proof.
  induction 1 as
    [idx env s out Hm
    |idx env s val Hm Hidx Hf
    |idx env s e Hm Hidx Hf
    |idx env s Hm Hidx Hv
    |idx env s v e s1 Hm Hidx Hv _ IH0
    |idx env s v low_id s1 e s2 Hm Hidx Hv _ IH0 _ IH1
    |idx env s v low_id s1 high_id s2 out s3 Hm Hidx Hv _ IH0 _ IH1 Hmk];
    simpl in *;
    try (pose proof (Nat.pow_nonzero 2 (length var_order - idx)); lia);
    pose proof (lookup_lt_Some _ _ _ Hv) as Hlt;
    rewrite (pow2_split _ idx) by done;
    pose proof (Nat.pow_nonzero 2 (length var_order - (idx + 1)));
    try lia.
  destruct (robdd_mk_nodes _ _ _ _ _ _ Hmk) as ([->| ->] & _);
    rewrite ?length_app; simpl; lia.
Qed.

(** No memo key is computed twice: a key is computed only when the memo
    table lacks it, the calls nested in its computation have deeper keys,
    and the key is stored when its computation returns. *)
Lemma robdd_run_computed idx env s r s' :
  ROBDD.run formula var_order idx env s r s' →
  NoDup (ROBDD.computed s) →
  computed_stored idx s →
  NoDup (ROBDD.computed s') ∧
  dom (ROBDD.memo s) ⊆ dom (ROBDD.memo s') ∧
  (∀ k, k ∈ ROBDD.computed s' → k ∈ ROBDD.computed s ∨ idx ≤ k.1) ∧
  (∀ id, r = Return id → computed_stored idx s').
Proof.
  assert (∀ idx env s,
    ROBDD.memo s !! (idx, frozen env) = None →
    NoDup (ROBDD.computed s) → computed_stored idx s →
    NoDup ((idx, frozen env) :: ROBDD.computed s) ∧
    computed_stored (idx + 1)
      (ROBDD.log_computed (idx, frozen env) s)) as Hfresh.
  { intros idx' env' t Hm Hnd Hst. split.
    - constructor; [|done]. intros Hin.
      destruct (Hst _ Hin) as [x Hx]; [simpl; lia|]. congruence.
    - intros k. simpl. rewrite elem_of_cons. intros [->|Hin] Hk.
      + simpl in Hk. lia.
      + apply Hst; [done|lia]. }
  induction 1 as
    [idx env s out Hm
    |idx env s val Hm Hidx Hf
    |idx env s e Hm Hidx Hf
    |idx env s Hm Hidx Hv
    |idx env s v e s1 Hm Hidx Hv _ IH0
    |idx env s v low_id s1 e s2 Hm Hidx Hv _ IH0 _ IH1
    |idx env s v low_id s1 high_id s2 out s3 Hm Hidx Hv _ IH0 _ IH1 Hmk];
    intros Hnd Hst;
    try (destruct (Hfresh idx env s Hm Hnd Hst) as [Hnd' Hst']).
  - split_and!; auto.
  - split_and!; simpl; [done|rewrite dom_insert_L; set_solver| |].
    + intros k [->|Hin]%elem_of_cons; simpl; auto.
    + intros id _ k. simpl. intros [->|Hin]%elem_of_cons Hk.
      * rewrite lookup_insert_eq. eauto.
      * destruct (Hst _ Hin Hk) as [x Hx]. rewrite lookup_insert.
        case_decide; eauto.
  - split_and!; simpl; [done|done| |done].
    intros k [->|Hin]%elem_of_cons; simpl; auto.
  - split_and!; simpl; [done|done| |done].
    intros k [->|Hin]%elem_of_cons; simpl; auto.
  - destruct (IH0 Hnd' Hst') as (Hnd1 & Hd1 & Hnew1 & _).
    split_and!; [done|done| |done].
    intros k [[->|Hin]%elem_of_cons|Hk]%Hnew1; simpl; auto. right. lia.
  - destruct (IH0 Hnd' Hst') as (Hnd1 & Hd1 & Hnew1 & Hst1).
    destruct (IH1 Hnd1 (Hst1 _ eq_refl)) as (Hnd2 & Hd2 & Hnew2 & _).
    split_and!; [done|set_solver| |done].
    intros k [[[->|Hin]%elem_of_cons|Hk]%Hnew1|Hk]%Hnew2; simpl; auto;
      right; lia.
  - destruct (IH0 Hnd' Hst') as (Hnd1 & Hd1 & Hnew1 & Hst1).
    destruct (IH1 Hnd1 (Hst1 _ eq_refl)) as (Hnd2 & Hd2 & Hnew2 & Hst2).
    specialize (Hst2 _ eq_refl).
    destruct (robdd_mk_nodes _ _ _ _ _ _ Hmk) as (_ & Hm3 & _ & Hc3).
    assert (∀ k, k ∈ ROBDD.computed s2 →
      k = (idx, frozen env) ∨ k ∈ ROBDD.computed s ∨ idx + 1 ≤ k.1) as Hnew.
    { intros k [[[->|Hin]%elem_of_cons|Hk]%Hnew1|Hk]%Hnew2; auto. }
    simpl in Hd1.
    split_and!; simpl; rewrite ?Hm3, ?Hc3.
    + done.
    + rewrite dom_insert_L. set_solver.
    + intros k [->|[?|?]]%Hnew; simpl; auto. right. lia.
    + intros id _ k. simpl. rewrite Hm3, Hc3. intros Hin Hk.
      rewrite lookup_insert. case_decide; [eauto|].
      destruct (Hnew _ Hin) as [->|[Hold|Hdeep]]; [done| |].
      * apply elem_of_dom. apply Hd2, Hd1. apply elem_of_dom. by apply Hst.
      * by apply Hst2.
Qed.

End ROBDD_calls.

(** ** The plain builder *)

Section BDD_run.

Variable formula : Env → exn + Z.
Variable var_order : list string.

Lemma bdd_build_fuel_run fuel : ∀ idx env s r s',
  BDD.build_fuel formula var_order fuel idx env s = (r, s') →
  r ≠ Fuel →
  BDD.run formula var_order idx env s r s'.
Proof.
  induction fuel as [|fuel IH]; intros idx env s r s'; simpl.
  { intros [= <- <-] ?. done. }
  case_decide as Hidx.
  { destruct (formula env) as [e|val] eqn:Hf; intros [= <- <-] _.
    - by apply BDD.run_leaf_raise.
    - by apply BDD.run_leaf. }
  destruct (var_order !! idx) as [v|] eqn:Hv.
  2:{ intros [= <- <-] _. by apply BDD.run_index. }
  destruct (BDD.build_fuel _ _ fuel (idx + 1) (<[v:=0%Z]> env) s)
    as [[low_id|e|] s1] eqn:H0.
  - destruct (BDD.build_fuel _ _ fuel (idx + 1) (<[v:=1%Z]> env) s1)
      as [[high_id|e|] s2] eqn:H1.
    + destruct (BDD.new_node v low_id high_id s2) as [out s3] eqn:Hmk.
      intros [= <- <-] _.
      eapply BDD.run_node; eauto.
    + intros [= <- <-] _. eapply BDD.run_high_raise; eauto.
    + intros [= <- <-] ?. done.
  - intros [= <- <-] _. eapply BDD.run_low_raise; eauto.
  - intros [= <- <-] ?. done.
Qed.

Lemma bdd_build_fuel_enough fuel : ∀ idx env s,
  length var_order - idx < fuel →
  (BDD.build_fuel formula var_order fuel idx env s).1 ≠ Fuel.
Proof.
  induction fuel as [|fuel IH]; intros idx env s Hlt; simpl; [lia|].
  case_decide as Hidx.
  { by destruct (formula env). }
  destruct (var_order !! idx) as [v|] eqn:Hv; [|done].
  apply lookup_lt_Some in Hv.
  pose proof (IH (idx + 1) (<[v:=0%Z]> env) s) as IH0.
  destruct (BDD.build_fuel _ _ fuel (idx + 1) (<[v:=0%Z]> env) s)
    as [[low_id|e|] s1]; simpl in *; [|done|apply IH0; lia].
  pose proof (IH (idx + 1) (<[v:=1%Z]> env) s1) as IH1.
  destruct (BDD.build_fuel _ _ fuel (idx + 1) (<[v:=1%Z]> env) s1)
    as [[high_id|e|] s2]; simpl in *; [|done|apply IH1; lia].
  done.
Qed.

Lemma bdd_build_run idx env s :
  BDD.run formula var_order idx env s
    (BDD.build formula var_order idx env s).1
    (BDD.build formula var_order idx env s).2.
Proof.
  unfold BDD.build.
  eapply bdd_build_fuel_run; [apply surjective_pairing|].
  apply bdd_build_fuel_enough. lia.
Qed.

Lemma bdd_init_wf : BDD.wf BDD.init.
Proof.
  split; simpl; try done.
  intros [|[|id]] n Hn Hid; [lia|lia|done].
Qed.

(** A call keeps the store well formed, only appends to it, and returns the
    id of a stored node. *)
Lemma bdd_run_wf idx env s r s' :
  BDD.run formula var_order idx env s r s' →
  BDD.wf s →
  BDD.wf s' ∧
  length (BDD.nodes s) ≤ length (BDD.nodes s') ∧
  (∀ id, r = Return id → id < length (BDD.nodes s')).
Proof.
  induction 1 as
    [idx env s val Hidx Hf
    |idx env s e Hidx Hf
    |idx env s Hidx Hv
    |idx env s v e s1 Hidx Hv _ IH0
    |idx env s v low_id s1 e s2 Hidx Hv _ IH0 _ IH1
    |idx env s v low_id s1 high_id s2 out s3 Hidx Hv _ IH0 _ IH1 Hmk];
    intros Hwf.
  - split_and!; [by destruct Hwf|done|].
    intros id [= <-]. simpl.
    pose proof (BDD.wf_terminal1 _ Hwf) as H1%lookup_lt_Some.
    unfold terminal_of. case_decide; lia.
  - split_and!; [by destruct Hwf|done|done].
  - done.
  - destruct (IH0 Hwf) as (? & ? & _). done.
  - destruct (IH0 Hwf) as (Hwf1 & ? & _).
    destruct (IH1 Hwf1) as (? & ? & _). split_and!; [done|lia|done].
  - destruct (IH0 Hwf) as (Hwf1 & Hlen1 & Hl).
    destruct (IH1 Hwf1) as (Hwf2 & Hlen2 & Hh).
    specialize (Hl _ eq_refl). specialize (Hh _ eq_refl).
    injection Hmk as <- <-. simpl. rewrite length_app. simpl.
    split_and!; [|lia|intros id [= <-]; lia].
    destruct Hwf2 as [H0 H1 Hn]. split; simpl.
    + by apply lookup_app_l_Some.
    + by apply lookup_app_l_Some.
    + intros id n Hid Hge.
      destruct (decide (id < length (BDD.nodes s2))) as [Hlt|Hnlt].
      * rewrite lookup_app_l in Hid by done. by apply Hn.
      * rewrite lookup_app_r in Hid by lia.
        destruct (id - length (BDD.nodes s2)) as [|k] eqn:Hk; [|done].
        injection Hid as <-. simpl. exists v. split_and!; [done|lia..].
Qed.

(** From a prefix assignment at depth [idx], the oracle is only invoked on
    assignments over the whole order; a call that returns has invoked it
    [2^(n - idx)] times and appended one node less; the only exception a
    call can raise is one the oracle raised on such an assignment. *)
Lemma bdd_run_calls idx env s r s' :
  BDD.run formula var_order idx env s r s' →
  idx ≤ length var_order →
  assignment_over (take idx var_order) env →
  (∃ new, BDD.calls s' = new ++ BDD.calls s ∧
          Forall (assignment_over var_order) new ∧
          (∀ id, r = Return id →
             length new = 2 ^ (length var_order - idx))) ∧
  (∀ id, r = Return id →
     length (BDD.nodes s') + 1 =
       length (BDD.nodes s) + 2 ^ (length var_order - idx)) ∧
  (∀ e, r = Raise e →
     ∃ A, assignment_over var_order A ∧ formula A = inl e).
Proof.
  induction 1 as
    [idx env s val Hidx Hf
    |idx env s e Hidx Hf
    |idx env s Hidx Hv
    |idx env s v e s1 Hidx Hv _ IH0
    |idx env s v low_id s1 e s2 Hidx Hv _ IH0 _ IH1
    |idx env s v low_id s1 high_id s2 out s3 Hidx Hv _ IH0 _ IH1 Hmk];
    intros Hle Henv.
  - subst idx. rewrite firstn_all in Henv. rewrite Nat.sub_diag.
    split_and!; [|simpl; lia|done].
    exists [env]. split_and!; [done|by constructor|done].
  - subst idx. rewrite firstn_all in Henv.
    split_and!; [|done|].
    + exists [env]. split_and!; [done|by constructor|done].
    + intros e' [= <-]. by exists env.
  - apply lookup_ge_None in Hv. lia.
  - pose proof (lookup_lt_Some _ _ _ Hv) as Hlt.
    destruct IH0 as ((new & Hc & Hall & _) & _ & Hraise); [lia| |].
    { eapply assignment_over_insert; eauto. }
    split_and!; [|done|done]. exists new. done.
  - pose proof (lookup_lt_Some _ _ _ Hv) as Hlt.
    destruct IH0 as ((n0 & Hc0 & Hall0 & _) & _ & _); [lia| |].
    { eapply assignment_over_insert; eauto. }
    destruct IH1 as ((n1 & Hc1 & Hall1 & _) & _ & Hraise); [lia| |].
    { eapply assignment_over_insert; eauto. }
    split_and!; [|done|done]. exists (n1 ++ n0). split_and!.
    + rewrite Hc1, Hc0. by rewrite app_assoc.
    + by apply Forall_app.
    + done.
  - pose proof (lookup_lt_Some _ _ _ Hv) as Hlt.
    destruct IH0 as ((n0 & Hc0 & Hall0 & Hlen0) & Hcount0 & _); [lia| |].
    { eapply assignment_over_insert; eauto. }
    destruct IH1 as ((n1 & Hc1 & Hall1 & Hlen1) & Hcount1 & _); [lia| |].
    { eapply assignment_over_insert; eauto. }
    specialize (Hlen0 _ eq_refl). specialize (Hlen1 _ eq_refl).
    specialize (Hcount0 _ eq_refl). specialize (Hcount1 _ eq_refl).
    injection Hmk as <- <-. simpl.
    rewrite (pow2_split _ idx) by done.
    split_and!; [|rewrite length_app; simpl; lia|done].
    exists (n1 ++ n0). split_and!.
    + rewrite Hc1, Hc0. by rewrite app_assoc.
    + by apply Forall_app.
    + intros _ _. rewrite length_app. lia.
Qed.

End BDD_run.

(** ** Completing the empty assignment *)

Lemma lookup_extend vs A : ∀ (env : Env) k,
  extend vs A env !! k =
    if decide (k ∈ vs) then Some (default 0%Z (A !! k)) else env !! k.
Proof.
  induction vs as [|v vs IH]; intros env k; cbn [extend].
  { rewrite decide_False; [done|apply not_elem_of_nil]. }
  rewrite IH. destruct (decide (k ∈ vs)) as [Hin|Hnin].
  - rewrite decide_True by (by right). done.
  - rewrite lookup_insert. destruct (decide (v = k)) as [->|Hne].
    + rewrite decide_True by (by left). done.
    + rewrite decide_False; [done|].
      intros [->|?]%elem_of_cons; done.
Qed.

Lemma extend_assignment vs (A : Env) :
  assignment_over vs A → extend vs A ∅ = A.
Proof.
  intros [Hdom Hbits]. apply map_eq. intros k. rewrite lookup_extend.
  case_decide as Hin.
  - assert (k ∈ dom A) as [x Hx]%elem_of_dom by (rewrite Hdom; set_solver).
    by rewrite Hx.
  - rewrite lookup_empty. symmetry. apply not_elem_of_dom.
    rewrite Hdom. set_solver.
Qed.

Lemma assignment_covers vs (A : Env) : assignment_over vs A → covers vs A.
Proof.
  intros [Hdom Hbits] v Hin.
  assert (v ∈ dom A) as [x Hx]%elem_of_dom by (rewrite Hdom; set_solver).
  rewrite Hx. destruct (Hbits v x Hx) as [-> | ->]; auto.
Qed.

Lemma robdd_init_sound formula var_order :
  memo_sound formula var_order ROBDD.init.
Proof. intros idx env id. simpl. by rewrite lookup_empty. Qed.

(** ** Whole builds *)

Section Builds.

Variable formula : Env → exn + Z.
Variable var_order : list string.

Let robdd := ROBDD.build formula var_order 0 ∅ ROBDD.init.
Let bdd := BDD.build formula var_order 0 ∅ BDD.init.

Lemma robdd_final_run :
  ROBDD.run formula var_order 0 ∅ ROBDD.init robdd.1 robdd.2.
Proof. apply robdd_build_run. Qed.

Lemma bdd_final_run :
  BDD.run formula var_order 0 ∅ BDD.init bdd.1 bdd.2.
Proof. apply bdd_build_run. Qed.

Lemma robdd_final_wf : ROBDD.wf robdd.2.
Proof.
  destruct (robdd_run_wf _ _ _ _ _ _ _ robdd_final_run robdd_init_wf)
    as (? & _). done.
Qed.

Lemma bdd_final_wf : BDD.wf bdd.2.
Proof.
  destruct (bdd_run_wf _ _ _ _ _ _ _ bdd_final_run bdd_init_wf)
    as (? & _). done.
Qed.

(** A build ends by returning a root or by raising what the oracle raised
    on an assignment over the order. *)
Lemma robdd_final_outcome :
  (∃ root, robdd.1 = Return root) ∨
  (∃ e A, robdd.1 = Raise e ∧ assignment_over var_order A ∧
          formula A = inl e).
Proof.
  destruct (robdd_run_calls _ _ _ _ _ _ _ robdd_final_run) as [_ Hraise].
  { lia. } { apply assignment_over_empty. }
  pose proof (robdd_build_fuel_enough formula var_order
    (S (length var_order - 0)) 0 ∅ ROBDD.init) as Hfuel.
  fold (ROBDD.build formula var_order 0 ∅ ROBDD.init) in Hfuel.
  fold robdd in Hfuel.
  destruct robdd.1 as [root|e|].
  - left. by exists root.
  - right. destruct (Hraise e eq_refl) as (A & ? & ?). by exists e, A.
  - exfalso. apply Hfuel; [lia|done].
Qed.

Lemma bdd_final_outcome :
  (∃ root, bdd.1 = Return root) ∨
  (∃ e A, bdd.1 = Raise e ∧ assignment_over var_order A ∧
          formula A = inl e).
Proof.
  destruct (bdd_run_calls _ _ _ _ _ _ _ bdd_final_run) as (_ & _ & Hraise).
  { lia. } { apply assignment_over_empty. }
  pose proof (bdd_build_fuel_enough formula var_order
    (S (length var_order - 0)) 0 ∅ BDD.init) as Hfuel.
  fold (BDD.build formula var_order 0 ∅ BDD.init) in Hfuel.
  fold bdd in Hfuel.
  destruct bdd.1 as [root|e|].
  - left. by exists root.
  - right. destruct (Hraise e eq_refl) as (A & ? & ?). by exists e, A.
  - exfalso. apply Hfuel; [lia|done].
Qed.

Lemma robdd_returns : oracle_defined formula var_order → ∃ root, robdd.1 = Return root.
Proof.
  intros Hdef. destruct robdd_final_outcome as [?|(e & A & _ & HA & Hf)];
    [done|].
  destruct (Hdef A HA) as [val Hval]. congruence.
Qed.

Lemma bdd_returns : oracle_defined formula var_order → ∃ root, bdd.1 = Return root.
Proof.
  intros Hdef. destruct bdd_final_outcome as [?|(e & A & _ & HA & Hf)];
    [done|].
  destruct (Hdef A HA) as [val Hval]. congruence.
Qed.

End Builds.

(** ** The hardcoded oracles on their configured orders *)

Lemma lookup_assign (f : string → Z) vs k :
  assign vs (f <$> vs) !! k = if decide (k ∈ vs) then Some (f k) else None.
Proof.
  unfold assign. induction vs as [|v vs IH].
  { rewrite decide_False by apply not_elem_of_nil. apply lookup_empty. }
  change (list_to_map (zip (v :: vs) (f <$> v :: vs)))
    with (<[v := f v]> (list_to_map (zip vs (f <$> vs)) : Env)).
  rewrite lookup_insert. destruct (decide (v = k)) as [->|Hne].
  - rewrite decide_True by (by left). done.
  - rewrite IH. destruct (decide (k ∈ vs)) as [Hin|Hnin].
    + rewrite decide_True by (by right). done.
    + rewrite decide_False; [done|]. intros [->|?]%elem_of_cons; done.
Qed.

(** An assignment over [vs] is the one binding [vs] to its own bits. *)
Lemma assignment_assign vs (A : Env) :
  assignment_over vs A →
  A = assign vs ((λ v, default 0%Z (A !! v)) <$> vs).
Proof.
  intros [Hdom Hbits]. apply map_eq. intros k. rewrite lookup_assign.
  case_decide as Hin.
  - assert (k ∈ dom A) as [x Hx]%elem_of_dom by (rewrite Hdom; set_solver).
    by rewrite Hx.
  - apply not_elem_of_dom. rewrite Hdom. set_solver.
Qed.

Lemma formula1_contract : oracle_contract formula1 order1.
Proof.
  intros A HA. pose proof (assignment_covers _ _ HA) as Hc.
  rewrite (assignment_assign _ _ HA). simpl.
  destruct (Hc "a"%string) as [-> | ->]; [solve_elem_of|..];
  (destruct (Hc "c"%string) as [-> | ->]; [solve_elem_of|..]);
  (destruct (Hc "b"%string) as [-> | ->]; [solve_elem_of|..]);
  (destruct (Hc "d"%string) as [-> | ->]; [solve_elem_of|..]);
  vm_compute; eauto.
Qed.

Lemma formula2_contract : oracle_contract formula2 order2.
Proof.
  intros A HA. pose proof (assignment_covers _ _ HA) as Hc.
  rewrite (assignment_assign _ _ HA). simpl.
  destruct (Hc "x1"%string) as [-> | ->]; [solve_elem_of|..];
  (destruct (Hc "x2"%string) as [-> | ->]; [solve_elem_of|..]);
  (destruct (Hc "x3"%string) as [-> | ->]; [solve_elem_of|..]);
  (destruct (Hc "x4"%string) as [-> | ->]; [solve_elem_of|..]);
  (destruct (Hc "x5"%string) as [-> | ->]; [solve_elem_of|..]);
  vm_compute; eauto.
Qed.

Lemma oracle_contract_defined formula var_order :
  oracle_contract formula var_order → oracle_defined formula var_order.
Proof. intros Hc A HA. destruct (Hc A HA) as (val & ? & _). eauto. Qed.

(** * The claims *)

(** ** C1: functional equivalence of the reduced diagram *)

(** C1.  For an oracle that keeps its contract on the assignments over the
    variable order, the reduced build started at depth 0 with the empty
    assignment returns a root, and for every complete assignment over the
    order the walk from that root, low edge on 0 and high edge on 1, ends at
    the terminal whose value is the oracle's output on that assignment. *)
Theorem robdd_functional_equivalence formula var_order :
  oracle_contract formula var_order →
  ∃ root, robdd_root formula var_order = Return root ∧
    ∀ A, assignment_over var_order A →
      ∃ val, formula A = inr val ∧
             traverse (robdd_store formula var_order) A root
               = Some (Z.to_nat val).
Proof.
  intros Hc.
  destruct (robdd_returns formula var_order
              (oracle_contract_defined _ _ Hc)) as [root Hroot].
  exists root. split; [done|]. intros A HA.
  pose proof (robdd_final_run formula var_order) as Hrun.
  destruct (robdd_run_sound _ _ _ _ _ _ _ Hrun robdd_init_wf
              (robdd_init_sound _ _)) as [_ Hrep].
  destruct (Hrep root Hroot A (assignment_covers _ _ HA)) as (val & Hf & Hr).
  rewrite drop_0, (extend_assignment _ _ HA) in Hf.
  exists val. split; [done|].
  destruct (Hc A HA) as (val' & Hf' & Hbit).
  assert (val' = val) as -> by congruence.
  assert (terminal_of val = Z.to_nat val) as <-.
  { unfold terminal_of. by destruct Hbit as [-> | ->]. }
  apply reaches_traverse; [|done].
  apply robdd_wf_children, robdd_final_wf.
Qed.

Lemma robdd_functional_equivalence_witness :
  ∃ root, robdd_root formula1 order1 = Return root ∧
    ∀ A, assignment_over order1 A →
      ∃ val, formula1 A = inr val ∧
             traverse (robdd_store formula1 order1) A root
               = Some (Z.to_nat val).
Proof.
  apply (robdd_functional_equivalence formula1 order1).
  exact formula1_contract.
Defined.

(** ** C2: canonicity *)

(** C2.  In the store a reduced build leaves, two different ids of
    non-terminal nodes never carry the same (variable, low, high) triple. *)
Theorem robdd_canonicity formula var_order i j ni nj :
  robdd_store formula var_order !! i = Some ni →
  robdd_store formula var_order !! j = Some nj →
  var ni ≠ None → var nj ≠ None →
  i ≠ j →
  (var ni, low ni, high ni) ≠ (var nj, low nj, high nj).
Proof.
  intros Hi Hj Hvi Hvj Hne [= Hv Hl Hh].
  pose proof (robdd_final_wf formula var_order) as Hwf.
  assert (∀ k n, robdd_store formula var_order !! k = Some n →
                 var n ≠ None → 2 ≤ k) as Hge.
  { intros [|[|k]] n Hk Hvar; [..|lia].
    - unfold robdd_store in Hk. rewrite (ROBDD.wf_terminal0 _ Hwf) in Hk.
      by injection Hk as <-.
    - unfold robdd_store in Hk. rewrite (ROBDD.wf_terminal1 _ Hwf) in Hk.
      by injection Hk as <-. }
  destruct (ROBDD.wf_node _ Hwf i ni Hi (Hge _ _ Hi Hvi))
    as (vi & Hvi' & _ & _ & _ & Hui).
  destruct (ROBDD.wf_node _ Hwf j nj Hj (Hge _ _ Hj Hvj))
    as (vj & Hvj' & _ & _ & _ & Huj).
  rewrite Hvi', Hvj' in Hv. injection Hv as ->.
  rewrite Hl, Hh in Hui. congruence.
Qed.

Lemma robdd_canonicity_witness :
  (Some "d"%string, 0, 1) ≠ (Some "d"%string, 1, 0).
Proof.
  apply (robdd_canonicity formula1 order1 2 3
           (mkNode (Some "d"%string) 0 1) (mkNode (Some "d"%string) 1 0)).
  - vm_compute. reflexivity.
  - vm_compute. reflexivity.
  - simpl. discriminate.
  - simpl. discriminate.
  - lia.
Defined.

(** ** C3: rule 1 *)

(** C3.  In the store a reduced build leaves, no non-terminal node has its
    low child equal to its high child. *)
Theorem robdd_rule1 formula var_order id n :
  robdd_store formula var_order !! id = Some n →
  var n ≠ None →
  low n ≠ high n.
Proof.
  intros Hn Hv.
  pose proof (robdd_final_wf formula var_order) as Hwf.
  destruct id as [|[|id]].
  - unfold robdd_store in Hn. rewrite (ROBDD.wf_terminal0 _ Hwf) in Hn.
    by injection Hn as <-.
  - unfold robdd_store in Hn. rewrite (ROBDD.wf_terminal1 _ Hwf) in Hn.
    by injection Hn as <-.
  - destruct (ROBDD.wf_node _ Hwf _ n Hn) as (v & _ & _ & _ & ? & _);
      [lia|done].
Qed.

Lemma robdd_rule1_witness : 4 ≠ 5.
Proof.
  apply (robdd_rule1 formula1 order1 6 (mkNode (Some "a"%string) 4 5)).
  - vm_compute. reflexivity.
  - simpl. discriminate.
Defined.

(** ** C9: children come before their parent *)

Lemma bdd_wf_children s :
  BDD.wf s →
  ∀ i n, BDD.nodes s !! i = Some n → var n ≠ None → low n < i ∧ high n < i.
Proof.
  intros Hwf i n Hn Hv.
  destruct (decide (2 ≤ i)) as [Hge|Hlt].
  - destruct (BDD.wf_node _ Hwf i n Hn Hge) as (v & _ & ? & ?). done.
  - destruct i as [|[|i]]; [| |lia].
    + rewrite (BDD.wf_terminal0 _ Hwf) in Hn. by injection Hn as <-.
    + rewrite (BDD.wf_terminal1 _ Hwf) in Hn. by injection Hn as <-.
Qed.

(** C9.  In the store either builder leaves, every non-terminal node has
    both child ids strictly below its own id; the children are therefore
    stored nodes and no walk along the edges comes back to a node. *)
Theorem children_before_parent formula var_order :
  (∀ id n, robdd_store formula var_order !! id = Some n → var n ≠ None →
     low n < id ∧ high n < id ∧
     is_Some (robdd_store formula var_order !! low n) ∧
     is_Some (robdd_store formula var_order !! high n)) ∧
  (∀ id n, bdd_store formula var_order !! id = Some n → var n ≠ None →
     low n < id ∧ high n < id ∧
     is_Some (bdd_store formula var_order !! low n) ∧
     is_Some (bdd_store formula var_order !! high n)).
Proof.
  split; intros id n Hn Hv.
  - destruct (robdd_wf_children _ (robdd_final_wf formula var_order)
                id n Hn Hv) as [Hl Hh].
    apply lookup_lt_Some in Hn.
    split_and!; [done|done|apply lookup_lt_is_Some; lia..].
  - destruct (bdd_wf_children _ (bdd_final_wf formula var_order)
                id n Hn Hv) as [Hl Hh].
    apply lookup_lt_Some in Hn.
    split_and!; [done|done|apply lookup_lt_is_Some; lia..].
Qed.

Lemma children_before_parent_witness :
  (4 < 6 ∧ 5 < 6 ∧
   is_Some (robdd_store formula1 order1 !! 4) ∧
   is_Some (robdd_store formula1 order1 !! 5)) ∧
  (8 < 16 ∧ 15 < 16 ∧
   is_Some (bdd_store formula1 order1 !! 8) ∧
   is_Some (bdd_store formula1 order1 !! 15)).
Proof.
  split.
  - apply (proj1 (children_before_parent formula1 order1)
             6 (mkNode (Some "a"%string) 4 5)).
    + vm_compute. reflexivity.
    + simpl. discriminate.
  - apply (proj2 (children_before_parent formula1 order1)
             16 (mkNode (Some "a"%string) 8 15)).
    + vm_compute. reflexivity.
    + simpl. discriminate.
Defined.

(** ** C4: duplicate names in the variable order *)

(** C4, as stated, fails: neither [__init__] nor [build] looks for
    duplicates, and on an order naming [a] twice the reduced build returns
    a root. *)
Lemma robdd_duplicates_accepted :
  ¬ NoDup order_dup ∧ robdd_root formula1 order_dup = Return 6.
Proof.
  split; [|vm_compute; reflexivity].
  intros Hnd. apply NoDup_cons in Hnd as [Hnotin _]. apply Hnotin. by left.
Qed.

(** C4, amended.  On a variable order with duplicate names the build makes
    no check of its own: it returns a root whenever the oracle returns on
    every assignment over the order's names, and an exception that ends it
    is one the oracle raised on such an assignment. *)
Theorem robdd_duplicates_not_checked formula var_order :
  ¬ NoDup var_order →
  (oracle_defined formula var_order →
     ∃ root, robdd_root formula var_order = Return root) ∧
  (∀ e, robdd_root formula var_order = Raise e →
     ∃ A, assignment_over var_order A ∧ formula A = inl e) ∧
  robdd_root formula var_order ≠ Fuel.
Proof.
  intros _. split_and!.
  - apply robdd_returns.
  - intros e He.
    destruct (robdd_final_outcome formula var_order)
      as [[root Hroot]|(e' & A & He' & HA & Hf)];
      unfold robdd_root in He; [congruence|].
    exists A. split; [done|]. congruence.
  - apply robdd_build_fuel_enough. lia.
Qed.

Lemma robdd_duplicates_not_checked_witness :
  (oracle_defined formula1 order_dup →
     ∃ root, robdd_root formula1 order_dup = Return root) ∧
  (∀ e, robdd_root formula1 order_dup = Raise e →
     ∃ A, assignment_over order_dup A ∧ formula1 A = inl e) ∧
  robdd_root formula1 order_dup ≠ Fuel.
Proof.
  apply (robdd_duplicates_not_checked formula1 order_dup).
  intros Hnd. apply NoDup_cons in Hnd as [Hnotin _]. apply Hnotin. by left.
Defined.

(** ** C5: memoization and the number of oracle invocations *)

(** C5, as stated, fails: the configured reduced build invokes the oracle
    16 times and leaves 7 nodes (two terminals and five decision nodes). *)
Lemma robdd_oracle_calls_exceed_nodes :
  length (robdd_calls formula1 order1) = 16 ∧
  length (robdd_store formula1 order1) = 7 ∧
  ¬ (length (robdd_calls formula1 order1)
       ≤ length (robdd_store formula1 order1)).
Proof.
  assert (length (robdd_calls formula1 order1) = 16) as Hc
    by (vm_compute; reflexivity).
  assert (length (robdd_store formula1 order1) = 7) as Hn
    by (vm_compute; reflexivity).
  rewrite Hc, Hn. split_and!; [done|done|lia].
Qed.

(** C5, amended.  During a reduced build started at depth 0 with the empty
    assignment each memo key is computed at most once and the oracle is
    invoked at most 2^n times, n the length of the order.  A plain build
    that returns has invoked the oracle exactly 2^n times, which is at most
    (one less than) the number of nodes it leaves. *)
Theorem memo_once_oracle_bound formula var_order :
  NoDup (robdd_computed formula var_order) ∧
  length (robdd_calls formula var_order) ≤ 2 ^ length var_order ∧
  (∀ root, bdd_root formula var_order = Return root →
     length (bdd_calls formula var_order) = 2 ^ length var_order ∧
     length (bdd_calls formula var_order)
       ≤ length (bdd_store formula var_order)).
Proof.
  split_and!.
  - destruct (robdd_run_computed _ _ _ _ _ _ _
                (robdd_final_run formula var_order)) as (Hnd & _).
    + simpl. constructor.
    + intros k Hk. simpl in Hk. by apply elem_of_nil in Hk.
    + done.
  - destruct (robdd_run_calls _ _ _ _ _ _ _
                (robdd_final_run formula var_order))
      as [(new & Hnew & _ & Hlen) _].
    { lia. } { apply assignment_over_empty. }
    unfold robdd_calls. rewrite Hnew. simpl. rewrite app_nil_r.
    by rewrite Nat.sub_0_r in Hlen.
  - intros root Hroot.
    destruct (bdd_run_calls _ _ _ _ _ _ _
                (bdd_final_run formula var_order))
      as ((new & Hnew & _ & Hlen) & Hcount & _).
    { lia. } { apply assignment_over_empty. }
    specialize (Hlen root Hroot). specialize (Hcount root Hroot).
    rewrite Nat.sub_0_r in Hlen, Hcount. simpl in Hcount.
    unfold bdd_calls, bdd_store. rewrite Hnew. simpl. rewrite app_nil_r.
    split; [done|lia].
Qed.

Lemma memo_once_oracle_bound_witness :
  length (bdd_calls formula1 order1) = 2 ^ length order1 ∧
  length (bdd_calls formula1 order1) ≤ length (bdd_store formula1 order1).
Proof.
  apply (proj2 (proj2 (memo_once_oracle_bound formula1 order1)) 16).
  vm_compute. reflexivity.
Defined.

(** ** C6: the reduced store is no larger than the plain one *)

(** C6.  For every variable order and every oracle that returns on the
    assignments over it, both builds return, and the reduced build leaves
    at most as many nodes as the plain build. *)
Theorem reduced_le_unreduced formula var_order :
  oracle_defined formula var_order →
  (∃ root, robdd_root formula var_order = Return root) ∧
  (∃ root, bdd_root formula var_order = Return root) ∧
  length (robdd_store formula var_order)
    ≤ length (bdd_store formula var_order).
Proof.
  intros Hdef.
  destruct (bdd_returns formula var_order Hdef) as [root Hroot].
  split_and!; [by apply robdd_returns|by exists root|].
  pose proof (robdd_run_count _ _ _ _ _ _ _
                (robdd_final_run formula var_order)) as Hr.
  destruct (bdd_run_calls _ _ _ _ _ _ _
              (bdd_final_run formula var_order)) as (_ & Hcount & _).
  { lia. } { apply assignment_over_empty. }
  specialize (Hcount root Hroot). simpl in Hr, Hcount.
  unfold robdd_store, bdd_store. lia.
Qed.

Lemma reduced_le_unreduced_witness :
  (∃ root, robdd_root formula1 order1 = Return root) ∧
  (∃ root, bdd_root formula1 order1 = Return root) ∧
  length (robdd_store formula1 order1) ≤ length (bdd_store formula1 order1).
Proof.
  apply (reduced_le_unreduced formula1 order1).
  apply oracle_contract_defined, formula1_contract.
Defined.

(** ** C7: scenario A *)

(** C7.  With the order [a, c, b, d] and the oracle (a and not c) or
    (b xor d): on a=1, c=0, b=0, d=0 the formula gives 1 and the walk from
    the root ends at terminal 1; on a=0, c=1, b=0, d=0 the formula gives 0
    and the walk ends at terminal 0; in the reduced and in the plain
    diagram. *)
Theorem scenario_A :
  formula1 scenarioA_1 = inr 1%Z ∧
  formula1 scenarioA_0 = inr 0%Z ∧
  (∃ root, robdd_root formula1 order1 = Return root ∧
     traverse (robdd_store formula1 order1) scenarioA_1 root = Some 1 ∧
     traverse (robdd_store formula1 order1) scenarioA_0 root = Some 0) ∧
  (∃ root, bdd_root formula1 order1 = Return root ∧
     traverse (bdd_store formula1 order1) scenarioA_1 root = Some 1 ∧
     traverse (bdd_store formula1 order1) scenarioA_0 root = Some 0).
Proof.
  split_and!; [vm_compute; reflexivity..| |].
  - exists 6. split_and!; vm_compute; reflexivity.
  - exists 16. split_and!; vm_compute; reflexivity.
Qed.

(** ** C8: scenario B *)

Lemma bit_vectors_spec n (bs : list Z) :
  bs ∈ bit_vectors n ↔
  length bs = n ∧ Forall (λ b, b = 0%Z ∨ b = 1%Z) bs.
Proof.
  revert bs. induction n as [|n IH]; intros bs; simpl.
  { rewrite list_elem_of_singleton. split.
    - intros ->. by split.
    - intros [Hlen _]. by destruct bs. }
  rewrite elem_of_app, !list_elem_of_fmap. split.
  - intros [(bs' & -> & [<- Hall]%IH)|(bs' & -> & [<- Hall]%IH)];
      (split; [done|constructor; auto]).
  - intros [Hlen Hall]. destruct bs as [|b bs]; [done|].
    apply Forall_cons in Hall as [[-> | ->] Hall];
      [left|right]; exists bs; (split; [done|]); apply IH;
      (split; [by injection Hlen|done]).
Qed.

Lemma assign_assignment_over vs (bs : list Z) :
  length bs = length vs → Forall (λ b, b = 0%Z ∨ b = 1%Z) bs →
  assignment_over vs (assign vs bs).
Proof.
  intros Hlen Hall. unfold assign. split.
  - rewrite dom_list_to_map_L, fst_zip by lia. done.
  - intros v x Hx%elem_of_list_to_map_2%elem_of_zip_r.
    by eapply Forall_forall in Hall.
Qed.

(** [all_assignments] lists the assignments over [vs], all of them. *)
Lemma elem_of_all_assignments vs (A : Env) :
  A ∈ all_assignments vs ↔ assignment_over vs A.
Proof.
  unfold all_assignments. rewrite list_elem_of_fmap. split.
  - intros (bs & -> & [Hlen Hall]%bit_vectors_spec).
    by apply assign_assignment_over.
  - intros HA. eexists. split; [by apply assignment_assign|].
    apply bit_vectors_spec. rewrite length_fmap. split; [done|].
    apply Forall_fmap, Forall_forall. intros v Hv. simpl.
    destruct (assignment_covers _ _ HA v Hv) as [-> | ->]; auto.
Qed.

(** C8.  For the oracle "at least three of x1..x5 are 1" and the order
    [x1..x5]: on every assignment with exactly three ones the oracle gives
    1 and the walk through the plain diagram ends at terminal 1; on every
    assignment with exactly two ones the oracle gives 0 and the walk ends
    at terminal 0; of the 32 assignments, exactly
    C(5,3) + C(5,4) + C(5,5) = 16 make the oracle give 1. *)
Theorem scenario_B :
  bdd_root formula2 order2 = Return 32 ∧
  (∀ A, assignment_over order2 A →
     (ones A = 3 →
        formula2 A = inr 1%Z ∧
        traverse (bdd_store formula2 order2) A 32 = Some 1) ∧
     (ones A = 2 →
        formula2 A = inr 0%Z ∧
        traverse (bdd_store formula2 order2) A 32 = Some 0)) ∧
  (∀ A, A ∈ all_assignments order2 ↔ assignment_over order2 A) ∧
  NoDup (all_assignments order2) ∧
  length (all_assignments order2) = 32 ∧
  length (filter (λ A, returns_one (formula2 A) = true)
            (all_assignments order2)) = 16 ∧
  choose 5 3 + choose 5 4 + choose 5 5 = 16.
Proof.
  split_and!.
  - vm_compute. reflexivity.
  - intros A HA%elem_of_all_assignments.
    assert (Forall (λ A,
      (ones A = 3 →
         formula2 A = inr 1%Z ∧
         traverse (bdd_store formula2 order2) A 32 = Some 1) ∧
      (ones A = 2 →
         formula2 A = inr 0%Z ∧
         traverse (bdd_store formula2 order2) A 32 = Some 0))
      (all_assignments order2)) as Hall.
    { unfold all_assignments. simpl bit_vectors. simpl fmap.
      repeat (apply Forall_cons_2;
        [split; intros H;
         first [vm_compute in H; discriminate H
               |split; vm_compute; reflexivity]|]).
      apply Forall_nil_2. }
    by eapply Forall_forall in Hall.
  - apply elem_of_all_assignments.
  - apply (bool_decide_unpack _). vm_compute. reflexivity.
  - vm_compute. reflexivity.
  - vm_compute. reflexivity.
  - reflexivity.
Qed.

Lemma scenario_B_witness :
  formula2 (assign order2 [1; 1; 1; 0; 0]%Z) = inr 1%Z ∧
  traverse (bdd_store formula2 order2) (assign order2 [1; 1; 1; 0; 0]%Z) 32
    = Some 1.
Proof.
  apply (proj1 (proj2 scenario_B) (assign order2 [1; 1; 1; 0; 0]%Z)).
  - apply assign_assignment_over; [reflexivity|].
    repeat (apply Forall_cons_2; [auto|]). apply Forall_nil_2.
  - vm_compute. reflexivity.
Defined.

(** ** C10: the oracle only sees complete assignments *)

(** C10.  In a build started at depth 0 with the empty assignment, reduced
    or plain, every assignment the oracle is invoked with binds exactly the
    names of the variable order, each to 0 or 1.  On such assignments over
    their configured orders the two hardcoded formulas find every key they
    look up and return, so the three configured builds return a root and
    no key error is raised. *)
Theorem oracle_invoked_on_complete :
  (∀ formula var_order,
     Forall (assignment_over var_order) (robdd_calls formula var_order) ∧
     Forall (assignment_over var_order) (bdd_calls formula var_order)) ∧
  (∀ A, assignment_over order1 A → ∃ val, formula1 A = inr val) ∧
  (∀ A, assignment_over order2 A → ∃ val, formula2 A = inr val) ∧
  (∃ root, robdd_root formula1 order1 = Return root) ∧
  (∃ root, bdd_root formula1 order1 = Return root) ∧
  (∃ root, bdd_root formula2 order2 = Return root).
Proof.
  split_and!.
  - intros formula var_order. split.
    + destruct (robdd_run_calls _ _ _ _ _ _ _
                  (robdd_final_run formula var_order))
        as [(new & Hnew & Hall & _) _].
      { lia. } { apply assignment_over_empty. }
      unfold robdd_calls. rewrite Hnew. simpl. by rewrite app_nil_r.
    + destruct (bdd_run_calls _ _ _ _ _ _ _
                  (bdd_final_run formula var_order))
        as ((new & Hnew & Hall & _) & _).
      { lia. } { apply assignment_over_empty. }
      unfold bdd_calls. rewrite Hnew. simpl. by rewrite app_nil_r.
  - apply oracle_contract_defined, formula1_contract.
  - apply oracle_contract_defined, formula2_contract.
  - apply robdd_returns, oracle_contract_defined, formula1_contract.
  - apply bdd_returns, oracle_contract_defined, formula1_contract.
  - apply bdd_returns, oracle_contract_defined, formula2_contract.
Qed.

Lemma oracle_invoked_on_complete_witness :
  ∃ val, formula1 scenarioA_1 = inr val.
Proof.
  apply (proj1 (proj2 oracle_invoked_on_complete) scenarioA_1).
  apply assign_assignment_over; [reflexivity|].
  repeat (apply Forall_cons_2; [auto|]). apply Forall_nil_2.
Defined.

(** * Further properties of the builders *)

(** ** [mk]: hash-consing *)

(** Asking [mk] for the same triple again gives the same id and changes
    nothing. *)
Theorem robdd_mk_idempotent v l h s out s' :
  ROBDD.mk v l h s = (out, s') →
  ROBDD.mk v l h s' = (out, s').
Proof.
  unfold ROBDD.mk. case_decide as Hlh; [by intros [= <- <-]|].
  destruct (ROBDD.unique_table s !! (v, l, h)) as [uid|] eqn:Hu.
  - intros [= <- <-]. by rewrite Hu.
  - intros [= <- <-]. simpl. by rewrite lookup_insert_eq.
Qed.

Lemma robdd_mk_idempotent_witness :
  ROBDD.mk "d" 0 1 (ROBDD.mk "d" 0 1 ROBDD.init).2
    = (2, (ROBDD.mk "d" 0 1 ROBDD.init).2).
Proof.
  apply (robdd_mk_idempotent "d" 0 1 ROBDD.init).
  vm_compute. reflexivity.
Defined.

(** On a well-formed store, [mk] with equal children returns the child and
    leaves the object alone; with different children it returns the id of
    a stored node that carries exactly the triple asked for, and the store
    is unchanged or longer by that one node. *)
Theorem robdd_mk_lookup v l h s out s' :
  ROBDD.wf s →
  ROBDD.mk v l h s = (out, s') →
  (l = h → out = l ∧ s' = s) ∧
  (l ≠ h →
     ROBDD.nodes s' !! out = Some (mkNode (Some v) l h) ∧
     ROBDD.unique_table s' !! (v, l, h) = Some out ∧
     (s' = s ∨
      (out = length (ROBDD.nodes s) ∧
       ROBDD.nodes s' = ROBDD.nodes s ++ [mkNode (Some v) l h]))).
Proof.
  intros Hwf. unfold ROBDD.mk. case_decide as Hlh.
  { intros [= <- <-]. split; [done|]. intros ?. done. }
  destruct (ROBDD.unique_table s !! (v, l, h)) as [uid|] eqn:Hu.
  - intros [= <- <-]. split; [done|]. intros _.
    destruct (ROBDD.wf_unique _ Hwf _ _ _ _ Hu) as [_ Hn]. auto.
  - intros [= <- <-]. split; [done|]. intros _. simpl. split_and!.
    + rewrite lookup_app_r by lia. by rewrite Nat.sub_diag.
    + apply lookup_insert_eq.
    + right. done.
Qed.

Lemma robdd_mk_lookup_witness :
  (0 = 1 → 2 = 0 ∧ (ROBDD.mk "d" 0 1 ROBDD.init).2 = ROBDD.init) ∧
  (0 ≠ 1 →
     ROBDD.nodes (ROBDD.mk "d" 0 1 ROBDD.init).2 !! 2
       = Some (mkNode (Some "d"%string) 0 1) ∧
     ROBDD.unique_table (ROBDD.mk "d" 0 1 ROBDD.init).2
       !! ("d"%string, 0, 1) = Some 2 ∧
     ((ROBDD.mk "d" 0 1 ROBDD.init).2 = ROBDD.init ∨
      (2 = length (ROBDD.nodes ROBDD.init) ∧
       ROBDD.nodes (ROBDD.mk "d" 0 1 ROBDD.init).2
         = ROBDD.nodes ROBDD.init ++ [mkNode (Some "d"%string) 0 1]))).
Proof.
  apply (robdd_mk_lookup "d" 0 1 ROBDD.init 2
           (ROBDD.mk "d" 0 1 ROBDD.init).2).
  - exact robdd_init_wf.
  - vm_compute. reflexivity.
Defined.

(** ** The store is append-only *)

Lemma robdd_run_prefix formula var_order idx env s r s' :
  ROBDD.run formula var_order idx env s r s' →
  ROBDD.nodes s `prefix_of` ROBDD.nodes s'.
Proof.
  induction 1 as
    [idx env s out Hm
    |idx env s val Hm Hidx Hf
    |idx env s e Hm Hidx Hf
    |idx env s Hm Hidx Hv
    |idx env s v e s1 Hm Hidx Hv _ IH0
    |idx env s v low_id s1 e s2 Hm Hidx Hv _ IH0 _ IH1
    |idx env s v low_id s1 high_id s2 out s3 Hm Hidx Hv _ IH0 _ IH1 Hmk];
    simpl in *; try done.
  - by etrans.
  - etrans; [exact IH0|]. etrans; [exact IH1|].
    destruct (robdd_mk_nodes _ _ _ _ _ _ Hmk) as ([->| ->] & _);
      [done|by apply prefix_app_r].
Qed.

Lemma bdd_run_prefix formula var_order idx env s r s' :
  BDD.run formula var_order idx env s r s' →
  BDD.nodes s `prefix_of` BDD.nodes s'.
Proof.
  induction 1 as
    [idx env s val Hidx Hf
    |idx env s e Hidx Hf
    |idx env s Hidx Hv
    |idx env s v e s1 Hidx Hv _ IH0
    |idx env s v low_id s1 e s2 Hidx Hv _ IH0 _ IH1
    |idx env s v low_id s1 high_id s2 out s3 Hidx Hv _ IH0 _ IH1 Hmk];
    simpl in *; try done.
  - by etrans.
  - injection Hmk as <- <-. simpl.
    etrans; [exact IH0|]. etrans; [exact IH1|]. by apply prefix_app_r.
Qed.

(** Whatever the depth, the assignment and the object's state a call of
    [build] starts from, and whether it returns or raises, the nodes
    stored before the call keep their ids and contents: the store only
    grows at its end.  In both variants. *)
Theorem build_append_only formula var_order idx env :
  (∀ s, ROBDD.nodes s
          `prefix_of` ROBDD.nodes (ROBDD.build formula var_order idx env s).2) ∧
  (∀ s, BDD.nodes s
          `prefix_of` BDD.nodes (BDD.build formula var_order idx env s).2).
Proof.
  split; intros s.
  - eapply robdd_run_prefix, robdd_build_run.
  - eapply bdd_run_prefix, bdd_build_run.
Qed.

(** ** The memo table *)

Lemma robdd_run_memo_stored formula var_order idx env s id s' :
  ROBDD.run formula var_order idx env s (Return id) s' →
  ROBDD.memo s' !! (idx, frozen env) = Some id.
Proof.
  inversion 1; subst; simpl; [done|apply lookup_insert_eq..].
Qed.

(** A call of [build] that returned has stored its result: the same call
    again returns the same id and leaves the object as it is, without
    invoking the oracle or touching the store. *)
Theorem robdd_build_memoized formula var_order idx env s id s' :
  ROBDD.build formula var_order idx env s = (Return id, s') →
  ROBDD.memo s' !! (idx, frozen env) = Some id ∧
  ROBDD.build formula var_order idx env s' = (Return id, s').
Proof.
  intros Hb. pose proof (robdd_build_run formula var_order idx env s) as Hrun.
  rewrite Hb in Hrun. simpl in Hrun.
  apply robdd_run_memo_stored in Hrun. split; [done|].
  unfold ROBDD.build. simpl. by rewrite Hrun.
Qed.

Lemma robdd_build_memoized_witness :
  ROBDD.memo (ROBDD.build formula1 order1 0 ∅ ROBDD.init).2
    !! (0, frozen ∅) = Some 6 ∧
  ROBDD.build formula1 order1 0 ∅
    (ROBDD.build formula1 order1 0 ∅ ROBDD.init).2
    = (Return 6, (ROBDD.build formula1 order1 0 ∅ ROBDD.init).2).
Proof.
  apply (robdd_build_memoized formula1 order1 0 ∅ ROBDD.init).
  vm_compute. reflexivity.
Defined.

(** ** Starting past the end of the order *)

(** A call of [build] at a depth beyond the length of the order raises
    [IndexError] at [self.var_order[idx]] and stores no node; the reduced
    variant first looks in the memo table. *)
Theorem build_index_error formula var_order idx env :
  length var_order < idx →
  (∀ s, ROBDD.memo s !! (idx, frozen env) = None →
     (ROBDD.build formula var_order idx env s).1 = Raise IndexError ∧
     ROBDD.nodes (ROBDD.build formula var_order idx env s).2
       = ROBDD.nodes s) ∧
  (∀ s, BDD.build formula var_order idx env s = (Raise IndexError, s)).
Proof.
  intros Hlt. split; intros s.
  - intros Hm. unfold ROBDD.build. simpl. rewrite Hm.
    rewrite decide_False by lia.
    rewrite (lookup_ge_None_2 var_order idx) by lia. done.
  - unfold BDD.build. simpl. rewrite decide_False by lia.
    rewrite (lookup_ge_None_2 var_order idx) by lia. done.
Qed.

Lemma build_index_error_witness :
  (∀ s, ROBDD.memo s !! (5, frozen ∅) = None →
     (ROBDD.build formula1 order1 5 ∅ s).1 = Raise IndexError ∧
     ROBDD.nodes (ROBDD.build formula1 order1 5 ∅ s).2 = ROBDD.nodes s) ∧
  (∀ s, BDD.build formula1 order1 5 ∅ s = (Raise IndexError, s)).
Proof.
  apply (build_index_error formula1 order1 5 ∅). simpl. lia.
Defined.

(** ** The plain diagram computes the oracle too *)

Lemma represents_prefix formula var_order (nodes nodes' : list Node)
    idx env id :
  nodes `prefix_of` nodes' →
  represents formula var_order nodes idx env id →
  represents formula var_order nodes' idx env id.
Proof. intros [new ->]. apply represents_app. Qed.

(** The node a plain call returns stands for the subproblem it was called
    on. *)
Lemma bdd_run_sound formula var_order idx env s r s' :
  BDD.run formula var_order idx env s r s' →
  BDD.wf s →
  ∀ id, r = Return id →
    represents formula var_order (BDD.nodes s') idx env id.
Proof.
  induction 1 as
    [idx env s val Hidx Hf
    |idx env s e Hidx Hf
    |idx env s Hidx Hv
    |idx env s v e s1 Hidx Hv _ IH0
    |idx env s v low_id s1 e s2 Hidx Hv _ IH0 _ IH1
    |idx env s v low_id s1 high_id s2 out s3 Hidx Hv Hrun0 IH0 Hrun1 IH1 Hmk];
    intros Hwf id; try done.
  - intros [= <-] A HA. exists val. subst idx. rewrite drop_all. simpl.
    split; [done|]. unfold terminal_of. case_decide.
    + eapply reaches_terminal; [apply (BDD.wf_terminal1 _ Hwf)|done].
    + eapply reaches_terminal; [apply (BDD.wf_terminal0 _ Hwf)|done].
  - intros [= <-].
    pose proof (IH0 Hwf _ eq_refl) as Hlow.
    destruct (bdd_run_wf _ _ _ _ _ _ _ Hrun0 Hwf) as (Hwf1 & _).
    pose proof (IH1 Hwf1 _ eq_refl) as Hhigh.
    eapply represents_prefix in Hlow; [|eapply bdd_run_prefix, Hrun1].
    injection Hmk as <- <-. simpl. intros A HA.
    rewrite (drop_S _ _ _ Hv). simpl. rewrite <- Nat.add_1_r.
    assert (v ∈ var_order) as Hin by (by eapply list_elem_of_lookup_2).
    assert ((BDD.nodes s2 ++ [mkNode (Some v) low_id high_id])
              !! length (BDD.nodes s2)
            = Some (mkNode (Some v) low_id high_id)) as Hnew.
    { rewrite lookup_app_r by lia. by rewrite Nat.sub_diag. }
    destruct (HA v Hin) as [HAv|HAv]; rewrite HAv; simpl.
    + destruct (Hlow A HA) as (val & Hf & Hr). exists val. split; [done|].
      eapply reaches_low; [exact Hnew|done|done|]. by apply reaches_app.
    + destruct (Hhigh A HA) as (val & Hf & Hr). exists val. split; [done|].
      eapply reaches_high; [exact Hnew|done|done|]. by apply reaches_app.
Qed.

(** For an oracle that keeps its contract on the assignments over the
    order, the plain build returns a root, and under every complete
    assignment the walk from it ends at the terminal whose value is the
    oracle's output: the plain diagram computes the oracle, for any order
    and also with repeated names. *)
Theorem bdd_functional_equivalence formula var_order :
  oracle_contract formula var_order →
  ∃ root, bdd_root formula var_order = Return root ∧
    ∀ A, assignment_over var_order A →
      ∃ val, formula A = inr val ∧
             traverse (bdd_store formula var_order) A root
               = Some (Z.to_nat val).
Proof.
  intros Hc.
  destruct (bdd_returns formula var_order
              (oracle_contract_defined _ _ Hc)) as [root Hroot].
  exists root. split; [done|]. intros A HA.
  pose proof (bdd_final_run formula var_order) as Hrun.
  pose proof (bdd_run_sound _ _ _ _ _ _ _ Hrun bdd_init_wf root Hroot) as Hrep.
  destruct (Hrep A (assignment_covers _ _ HA)) as (val & Hf & Hr).
  rewrite drop_0, (extend_assignment _ _ HA) in Hf.
  exists val. split; [done|].
  destruct (Hc A HA) as (val' & Hf' & Hbit).
  assert (val' = val) as -> by congruence.
  assert (terminal_of val = Z.to_nat val) as <-.
  { unfold terminal_of. by destruct Hbit as [-> | ->]. }
  apply reaches_traverse; [|done].
  apply bdd_wf_children, bdd_final_wf.
Qed.

Lemma bdd_functional_equivalence_witness :
  ∃ root, bdd_root formula2 order2 = Return root ∧
    ∀ A, assignment_over order2 A →
      ∃ val, formula2 A = inr val ∧
             traverse (bdd_store formula2 order2) A root
               = Some (Z.to_nat val).
Proof.
  apply (bdd_functional_equivalence formula2 order2).
  exact formula2_contract.
Defined.

(** Reduction changes no answer: for the same order and oracle, the
    reduced and the plain diagram send every complete assignment to the
    same terminal. *)
Theorem robdd_bdd_agree formula var_order :
  oracle_defined formula var_order →
  ∃ r1 r2,
    robdd_root formula var_order = Return r1 ∧
    bdd_root formula var_order = Return r2 ∧
    ∀ A, assignment_over var_order A →
      ∃ t, traverse (robdd_store formula var_order) A r1 = Some t ∧
           traverse (bdd_store formula var_order) A r2 = Some t.
Proof.
  intros Hc.
  destruct (robdd_returns formula var_order Hc) as [r1 Hr1].
  destruct (bdd_returns formula var_order Hc) as [r2 Hr2].
  exists r1, r2. split_and!; [done..|]. intros A HA.
  pose proof (robdd_final_run formula var_order) as Hrun1.
  destruct (robdd_run_sound _ _ _ _ _ _ _ Hrun1 robdd_init_wf
              (robdd_init_sound _ _)) as [_ Hrep1].
  pose proof (bdd_run_sound _ _ _ _ _ _ _
                (bdd_final_run formula var_order) bdd_init_wf r2 Hr2)
    as Hrep2.
  destruct (Hrep1 r1 Hr1 A (assignment_covers _ _ HA)) as (v1 & Hf1 & Hw1).
  destruct (Hrep2 A (assignment_covers _ _ HA)) as (v2 & Hf2 & Hw2).
  assert (v2 = v1) as -> by congruence.
  exists (terminal_of v1). split.
  - apply reaches_traverse; [|done].
    apply robdd_wf_children, robdd_final_wf.
  - apply reaches_traverse; [|done].
    apply bdd_wf_children, bdd_final_wf.
Qed.

Lemma robdd_bdd_agree_witness :
  ∃ r1 r2,
    robdd_root formula1 order1 = Return r1 ∧
    bdd_root formula1 order1 = Return r2 ∧
    ∀ A, assignment_over order1 A →
      ∃ t, traverse (robdd_store formula1 order1) A r1 = Some t ∧
           traverse (bdd_store formula1 order1) A r2 = Some t.
Proof.
  apply (robdd_bdd_agree formula1 order1).
  apply oracle_contract_defined, formula1_contract.
Defined.

(** ** The reduced diagram is ordered *)

Lemma above_app vs nodes new k c :
  c < length nodes → above vs nodes k c → above vs (nodes ++ new) k c.
Proof.
  intros Hc Ha nc w Hn. rewrite lookup_app_l in Hn by done. by apply Ha.
Qed.

Lemma above_le vs nodes k k' c :
  k' ≤ k → above vs nodes k c → above vs nodes k' c.
Proof.
  intros Hle Ha nc w Hn Hw. destruct (Ha nc w Hn Hw) as (q & ? & ?).
  exists q. split; [lia|done].
Qed.

Lemma above_terminal vs s k c :
  ROBDD.wf s → c < 2 → above vs (ROBDD.nodes s) k c.
Proof.
  intros Hwf Hc nc w Hn Hw. destruct c as [|[|c]]; [| |lia].
  - rewrite (ROBDD.wf_terminal0 _ Hwf) in Hn. by injection Hn as <-.
  - rewrite (ROBDD.wf_terminal1 _ Hwf) in Hn. by injection Hn as <-.
Qed.

Lemma ordered_app vs s new :
  ROBDD.wf s →
  ordered vs (ROBDD.nodes s) →
  (∀ id n v, new !! id = Some n → var n = Some v →
     ∃ p, vs !! p = Some v ∧
          low n < length (ROBDD.nodes s) ∧ high n < length (ROBDD.nodes s) ∧
          above vs (ROBDD.nodes s) (S p) (low n) ∧
          above vs (ROBDD.nodes s) (S p) (high n)) →
  ordered vs (ROBDD.nodes s ++ new).
Proof.
  intros Hwf Hord Hnew id n v Hn Hv.
  destruct (decide (id < length (ROBDD.nodes s))) as [Hlt|Hge].
  - rewrite lookup_app_l in Hn by done.
    destruct (Hord id n v Hn Hv) as (p & Hp & Hl & Hh).
    destruct (robdd_wf_children _ Hwf id n Hn) as [? ?]; [by rewrite Hv|].
    exists p. split_and!; [done|apply above_app; [lia|done]..].
  - rewrite lookup_app_r in Hn by lia.
    destruct (Hnew _ n v Hn Hv) as (p & Hp & ? & ? & Hl & Hh).
    exists p. split_and!; [done|by apply above_app..].
Qed.

Section ROBDD_ordered.

Variable formula : Env → exn + Z.
Variable var_order : list string.

Lemma robdd_run_ordered idx env s r s' :
  ROBDD.run formula var_order idx env s r s' →
  ROBDD.wf s → ordered var_order (ROBDD.nodes s) → memo_above var_order s →
  ordered var_order (ROBDD.nodes s') ∧ memo_above var_order s' ∧
  (∀ id, r = Return id → above var_order (ROBDD.nodes s') idx id).
Proof.
  induction 1 as
    [idx env s out Hm
    |idx env s val Hm Hidx Hf
    |idx env s e Hm Hidx Hf
    |idx env s Hm Hidx Hv
    |idx env s v e s1 Hm Hidx Hv Hrun0 IH0
    |idx env s v low_id s1 e s2 Hm Hidx Hv Hrun0 IH0 Hrun1 IH1
    |idx env s v low_id s1 high_id s2 out s3 Hm Hidx Hv Hrun0 IH0 Hrun1 IH1 Hmk];
    intros Hwf Hord Hmemo.
  - split_and!; [done..|]. intros id [= <-]. by eapply Hmemo.
  - assert (above var_order (ROBDD.nodes s) idx (terminal_of val)) as Hab.
    { apply above_terminal; [done|]. unfold terminal_of. case_decide; lia. }
    split_and!; simpl; [done| |by intros id [= <-]].
    intros idx' key id. simpl. rewrite lookup_insert. case_decide as Hk.
    + intros [= <-]. by injection Hk as <- _.
    + apply Hmemo.
  - done.
  - done.
  - destruct IH0 as (? & ? & _); [by apply robdd_wf_log_computed|done..|].
    done.
  - destruct IH0 as (Ho1 & Hm1 & _); [by apply robdd_wf_log_computed|done..|].
    apply robdd_run_wf in Hrun0 as (Hwf1 & _);
      [|by apply robdd_wf_log_computed].
    destruct (IH1 Hwf1 Ho1 Hm1) as (? & ? & _). done.
  - destruct IH0 as (Ho1 & Hm1 & Hl); [by apply robdd_wf_log_computed|done..|].
    apply robdd_run_wf in Hrun0 as (Hwf1 & _ & Hl1);
      [|by apply robdd_wf_log_computed].
    destruct (IH1 Hwf1 Ho1 Hm1) as (Ho2 & Hm2 & Hh).
    pose proof Hrun1 as Hrun1'.
    apply robdd_run_wf in Hrun1 as (Hwf2 & [n2 Hn2] & Hh2); [|done].
    specialize (Hl _ eq_refl). specialize (Hh _ eq_refl).
    specialize (Hl1 _ eq_refl). specialize (Hh2 _ eq_refl).
    assert (low_id < length (ROBDD.nodes s2)) as Hl2.
    { rewrite Hn2, length_app. lia. }
    assert (above var_order (ROBDD.nodes s2) (idx + 1) low_id) as Hl'.
    { rewrite Hn2. by apply above_app. }
    destruct (robdd_mk_wf _ _ _ _ _ _ Hwf2 Hl2 Hh2 Hmk) as [Hwf3 _].
    assert (ordered var_order (ROBDD.nodes s3) ∧
            (∀ c k, c < length (ROBDD.nodes s2) →
               above var_order (ROBDD.nodes s2) k c →
               above var_order (ROBDD.nodes s3) k c) ∧
            ROBDD.memo s3 = ROBDD.memo s2 ∧
            above var_order (ROBDD.nodes s3) idx out) as (Ho3 & Hup & Hm3 & Hout).
    { revert Hmk. unfold ROBDD.mk. case_decide as Hlh.
      { intros [= <- <-]. split_and!; [done|auto|done|].
        by eapply above_le; [|exact Hl']; lia. }
      destruct (ROBDD.unique_table s2 !! (v, low_id, high_id))
        as [uid|] eqn:Hu.
      - intros [= <- <-]. split_and!; [done|auto|done|].
        destruct (ROBDD.wf_unique _ Hwf2 _ _ _ _ Hu) as [_ Hn].
        intros nc w Hnc Hw. rewrite Hn in Hnc. injection Hnc as <-.
        simpl in Hw. injection Hw as <-. exists idx. done.
      - intros [= <- <-]. simpl. split_and!; [|by intros; apply above_app|done|].
        + apply ordered_app; [done..|].
          intros [|id] n w Hn Hw; [|done]. injection Hn as <-.
          simpl in *. injection Hw as <-. exists idx.
          rewrite <- Nat.add_1_r. done.
        + intros nc w Hnc Hw. rewrite lookup_app_r in Hnc by lia.
          rewrite Nat.sub_diag in Hnc. injection Hnc as <-.
          simpl in Hw. injection Hw as <-. exists idx. done. }
    split_and!; simpl; [done| |by intros id [= <-]].
    intros idx' key id. simpl. rewrite lookup_insert. case_decide as Hk.
    + intros [= <-]. by injection Hk as <- _.
    + rewrite Hm3. intros Hid. apply Hup; [|by eapply Hm2].
      by eapply ROBDD.wf_memo.
Qed.

End ROBDD_ordered.



(** ** No node is left behind *)

Lemma descends_app nodes new id c :
  descends nodes id c → descends (nodes ++ new) id c.
Proof.
  induction 1 as [id|id n c Hn Hv _ IH|id n c Hn Hv _ IH].
  - constructor.
  - eapply descends_low; [by apply lookup_app_l_Some|done..].
  - eapply descends_high; [by apply lookup_app_l_Some|done..].
Qed.

(** The nodes a reduced call appends are all found from the node it
    returns. *)
Lemma robdd_run_descends formula var_order idx env s r s' :
  ROBDD.run formula var_order idx env s r s' →
  ROBDD.wf s →
  ∀ out, r = Return out →
    ∀ c, length (ROBDD.nodes s) ≤ c < length (ROBDD.nodes s') →
      descends (ROBDD.nodes s') out c.
Proof.
  induction 1 as
    [idx env s out Hm
    |idx env s val Hm Hidx Hf
    |idx env s e Hm Hidx Hf
    |idx env s Hm Hidx Hv
    |idx env s v e s1 Hm Hidx Hv Hrun0 IH0
    |idx env s v low_id s1 e s2 Hm Hidx Hv Hrun0 IH0 Hrun1 IH1
    |idx env s v low_id s1 high_id s2 out s3 Hm Hidx Hv Hrun0 IH0 Hrun1 IH1 Hmk];
    intros Hwf out' Hout c Hc; try done; simpl in *; try lia.
  injection Hout as <-.
  assert (ROBDD.wf (ROBDD.log_computed (idx, frozen env) s)) as Hwf0
    by (by apply robdd_wf_log_computed).
  specialize (IH0 Hwf0 _ eq_refl).
  destruct (robdd_run_wf _ _ _ _ _ _ _ Hrun0 Hwf0) as (Hwf1 & _ & _).
  specialize (IH1 Hwf1 _ eq_refl).
  destruct (robdd_run_wf _ _ _ _ _ _ _ Hrun1 Hwf1) as (Hwf2 & [n2 Hn2] & _).
  assert (∀ c, length (ROBDD.nodes s) ≤ c < length (ROBDD.nodes s2) →
            descends (ROBDD.nodes s2) low_id c ∨
            descends (ROBDD.nodes s2) high_id c) as Hboth.
  { intros c' Hc'.
    destruct (decide (c' < length (ROBDD.nodes s1))) as [Hlt|Hge].
    - left. rewrite Hn2. apply descends_app, IH0. simpl. lia.
    - right. apply IH1. lia. }
  revert Hmk Hc. unfold ROBDD.mk. case_decide as Hlh.
  { intros [= <- <-] Hc. subst high_id.
    destruct (Hboth c Hc) as [?|?]; done. }
  destruct (ROBDD.unique_table s2 !! (v, low_id, high_id)) as [uid|] eqn:Hu.
  - intros [= <- <-] Hc.
    destruct (ROBDD.wf_unique _ Hwf2 _ _ _ _ Hu) as [_ Hn].
    destruct (Hboth c Hc) as [?|?].
    + eapply descends_low; [exact Hn|done|done].
    + eapply descends_high; [exact Hn|done|done].
  - intros [= <- <-]. simpl. rewrite length_app. simpl. intros Hc.
    destruct (decide (c = length (ROBDD.nodes s2))) as [->|Hne];
      [constructor|].
    assert ((ROBDD.nodes s2 ++ [mkNode (Some v) low_id high_id])
              !! length (ROBDD.nodes s2)
            = Some (mkNode (Some v) low_id high_id)) as Hnew.
    { rewrite lookup_app_r by lia. by rewrite Nat.sub_diag. }
    destruct (Hboth c) as [?|?]; [lia| |].
    + eapply descends_low; [exact Hnew|done|]. by apply descends_app.
    + eapply descends_high; [exact Hnew|done|]. by apply descends_app.
Qed.

Lemma bdd_run_descends formula var_order idx env s r s' :
  BDD.run formula var_order idx env s r s' →
  ∀ out, r = Return out →
    ∀ c, length (BDD.nodes s) ≤ c < length (BDD.nodes s') →
      descends (BDD.nodes s') out c.
Proof.
  induction 1 as
    [idx env s val Hidx Hf
    |idx env s e Hidx Hf
    |idx env s Hidx Hv
    |idx env s v e s1 Hidx Hv _ IH0
    |idx env s v low_id s1 e s2 Hidx Hv _ IH0 Hrun1 IH1
    |idx env s v low_id s1 high_id s2 out s3 Hidx Hv _ IH0 Hrun1 IH1 Hmk];
    intros out' Hout c Hc; try done; simpl in *; try lia.
  injection Hout as <-. injection Hmk as <- <-. simpl in *.
  rewrite length_app in Hc. simpl in Hc.
  destruct (decide (c = length (BDD.nodes s2))) as [->|Hne]; [constructor|].
  assert ((BDD.nodes s2 ++ [mkNode (Some v) low_id high_id])
            !! length (BDD.nodes s2)
          = Some (mkNode (Some v) low_id high_id)) as Hnew.
  { rewrite lookup_app_r by lia. by rewrite Nat.sub_diag. }
  destruct (bdd_run_prefix _ _ _ _ _ _ _ Hrun1) as [n2 Hn2].
  destruct (decide (c < length (BDD.nodes s1))) as [Hlt|Hge].
  - eapply descends_low; [exact Hnew|done|]. simpl.
    apply descends_app. rewrite Hn2. apply descends_app, IH0; [done|lia].
  - eapply descends_high; [exact Hnew|done|]. simpl.
    apply descends_app, IH1; [done|lia].
Qed.

(** Neither build leaves an orphan: when the build returns, every decision
    node in the store is found from the root along low and high edges.  In
    the reduced variant this holds although rule 1 drops tests and rule 2
    reuses nodes. *)
Theorem build_no_orphans formula var_order :
  (∀ root c, robdd_root formula var_order = Return root →
     2 ≤ c < length (robdd_store formula var_order) →
     descends (robdd_store formula var_order) root c) ∧
  (∀ root c, bdd_root formula var_order = Return root →
     2 ≤ c < length (bdd_store formula var_order) →
     descends (bdd_store formula var_order) root c).
Proof.
  split; intros root c Hroot Hc.
  - eapply robdd_run_descends;
      [apply robdd_final_run|apply robdd_init_wf|done|done].
  - eapply bdd_run_descends; [apply bdd_final_run|done|done].
Qed.

Lemma build_no_orphans_witness :
  descends (robdd_store formula1 order1) 6 2 ∧
  descends (bdd_store formula1 order1) 16 2.
Proof.
  split.
  - apply (proj1 (build_no_orphans formula1 order1) 6 2).
    + vm_compute. reflexivity.
    + split; [lia|]. vm_compute. lia.
  - apply (proj2 (build_no_orphans formula1 order1) 16 2).
    + vm_compute. reflexivity.
    + split; [lia|]. vm_compute. lia.
Defined.

(** ** One node per function *)

Lemma assignment_over_insert_same vs (A : Env) v (b : Z) :
  assignment_over vs A → v ∈ vs → b = 0%Z ∨ b = 1%Z →
  assignment_over vs (<[v:=b]> A).
Proof.
  intros [Hdom Hbits] Hv Hb. split.
  - rewrite dom_insert_L, Hdom. set_solver.
  - intros w x. rewrite lookup_insert. case_decide; [by intros [= <-]|].
    apply Hbits.
Qed.

Section Canonical.

Variable var_order : list string.
Variable s : ROBDD.state.
Hypothesis order_nodup : NoDup var_order.
Hypothesis store_wf : ROBDD.wf s.
Hypothesis store_ordered : ordered var_order (ROBDD.nodes s).

Let nodes := ROBDD.nodes s.

Lemma canonical_total (A : Env) :
  assignment_over var_order A →
  ∀ id, id < length nodes →
    ∃ t, reaches nodes A id t ∧ traverse nodes A id = Some t.
Proof.
  intros HA id. induction (lt_wf id) as [id _ IH]. intros Hlt.
  assert (∀ t, reaches nodes A id t → traverse nodes A id = Some t) as Htr.
  { intros t. apply reaches_traverse. by apply robdd_wf_children. }
  destruct (lookup_lt_is_Some_2 nodes id Hlt) as [n Hn].
  destruct (var n) as [v|] eqn:Hv.
  - destruct (store_ordered id n v Hn Hv) as (p & Hp & _).
    destruct (robdd_wf_children _ store_wf id n Hn) as [Hl Hh];
      [by rewrite Hv|].
    assert (v ∈ var_order) as Hin by (by eapply list_elem_of_lookup_2).
    destruct (assignment_covers _ _ HA v Hin) as [HAv|HAv].
    + destruct (IH (low n)) as (t & Ht & _); [lia..|].
      exists t. split; [|apply Htr]; by eapply reaches_low.
    + destruct (IH (high n)) as (t & Ht & _); [lia..|].
      exists t. split; [|apply Htr]; by eapply reaches_high.
  - exists id. split; [|apply Htr]; by eapply reaches_terminal.
Qed.

(** A walk only reads the variables from the level of its start on. *)
Lemma canonical_indep (A A' : Env) id t k :
  reaches nodes A id t →
  above var_order nodes k id →
  (∀ q w, k ≤ q → var_order !! q = Some w → A' !! w = A !! w) →
  reaches nodes A' id t.
Proof.
  intros Hr. revert k.
  induction Hr as [id n Hn Hv|id n v t Hn Hv HA _ IH|id n v t Hn Hv HA _ IH];
    intros k Hab Hag.
  - by eapply reaches_terminal.
  - destruct (Hab n v Hn Hv) as (q & Hq & Hq').
    destruct (store_ordered id n v Hn Hv) as (p & Hp & Hl & _).
    assert (p = q) as -> by (by eapply NoDup_lookup).
    eapply reaches_low; [done..| |].
    + rewrite (Hag q v); done.
    + eapply IH; [|done]. eapply above_le; [|done]. lia.
  - destruct (Hab n v Hn Hv) as (q & Hq & Hq').
    destruct (store_ordered id n v Hn Hv) as (p & Hp & _ & Hh).
    assert (p = q) as -> by (by eapply NoDup_lookup).
    eapply reaches_high; [done..| |].
    + rewrite (Hag q v); done.
    + eapply IH; [|done]. eapply above_le; [|done]. lia.
Qed.

(** Fixing the variable of a node to [b] turns the node's function into
    its child's, and leaves alone every function from a later level. *)
Lemma canonical_cofactor i n v p (b : Z) c j :
  nodes !! i = Some n → var n = Some v → var_order !! p = Some v →
  (b = 0%Z ∧ c = low n ∨ b = 1%Z ∧ c = high n) →
  j < length nodes →
  above var_order nodes (S p) j →
  (∀ A, assignment_over var_order A →
     traverse nodes (<[v:=b]> A) i = traverse nodes (<[v:=b]> A) j) →
  same_function var_order nodes c j.
Proof.
  intros Hn Hv Hp Hb Hj Habj Heq A HA.
  destruct (store_ordered i n v Hn Hv) as (p' & Hp' & Hl & Hh).
  assert (p' = p) as -> by (by eapply NoDup_lookup).
  destruct (robdd_wf_children _ store_wf i n Hn) as [Hli Hhi];
    [by rewrite Hv|].
  pose proof (lookup_lt_Some _ _ _ Hn) as Hi.
  assert (v ∈ var_order) as Hin by (by eapply list_elem_of_lookup_2).
  assert (assignment_over var_order (<[v:=b]> A)) as HAb.
  { apply assignment_over_insert_same; [done..|]. naive_solver. }
  assert (∀ q w, S p ≤ q → var_order !! q = Some w →
            A !! w = <[v:=b]> A !! w) as Hag.
  { intros q w Hq Hw. rewrite lookup_insert_ne; [done|].
    intros ->. assert (q = p) by (by eapply NoDup_lookup). lia. }
  assert (c < length nodes ∧ above var_order nodes (S p) c) as [Hc Habc].
  { destruct Hb as [[_ ->]|[_ ->]]; split; (lia || done). }
  destruct (canonical_total _ HAb c Hc) as (t & Hrc & _).
  assert (reaches nodes (<[v:=b]> A) i t) as Hri.
  { destruct Hb as [[-> ->]|[-> ->]].
    - eapply reaches_low; [done..|by rewrite lookup_insert_eq|done].
    - eapply reaches_high; [done..|by rewrite lookup_insert_eq|done]. }
  destruct (canonical_total _ HAb i Hi) as (ti & Hri' & Hti).
  destruct (canonical_total _ HAb j Hj) as (tj & Hrj & Htj).
  assert (traverse nodes (<[v:=b]> A) i = Some t) as Hti'.
  { apply reaches_traverse; [by apply robdd_wf_children|done]. }
  specialize (Heq A HA). rewrite Hti', Htj in Heq. injection Heq as <-.
  rewrite (reaches_traverse nodes A c t);
    [|by apply robdd_wf_children|by eapply canonical_indep].
  rewrite (reaches_traverse nodes A j t);
    [done|by apply robdd_wf_children|by eapply canonical_indep].
Qed.

Lemma canonical_terminal_above k c :
  c < 2 → above var_order nodes k c.
Proof. intros Hc. by apply above_terminal. Qed.

Lemma canonical_same_function_sym i j :
  same_function var_order nodes i j → same_function var_order nodes j i.
Proof. intros H A HA. symmetry. by apply H. Qed.

Lemma canonical_inj_aux m : ∀ i j,
  i + j < m → i < length nodes → j < length nodes →
  same_function var_order nodes i j → i = j.
Proof.
  induction m as [|m IH]; intros i j Hm Hi Hj Hsame; [lia|].
  (* a decision node [i] against a node [j] of a later level *)
  assert (∀ i j n v p,
    i + j < S m → j < length nodes →
    nodes !! i = Some n → var n = Some v → var_order !! p = Some v →
    above var_order nodes (S p) j → same_function var_order nodes i j → False) as Hlater.
  { clear i j Hm Hi Hj Hsame. intros i j n v p Hm Hj Hn Hv Hp Hab Hsame.
    destruct (robdd_wf_children _ store_wf i n Hn) as [Hli Hhi];
      [by rewrite Hv|].
    pose proof (lookup_lt_Some _ _ _ Hn) as Hi.
    assert (v ∈ var_order) as Hin by (by eapply list_elem_of_lookup_2).
    assert (∀ b, b = 0%Z ∨ b = 1%Z → ∀ A, assignment_over var_order A →
      traverse nodes (<[v:=b]> A) i = traverse nodes (<[v:=b]> A) j) as Hb.
    { intros b Hbit A HA. apply Hsame.
      by apply assignment_over_insert_same. }
    assert (low n = j) as Hl.
    { apply IH; [lia|lia|done|].
      eapply (canonical_cofactor i n v p 0%Z); eauto. }
    assert (high n = j) as Hh.
    { apply IH; [lia|lia|done|].
      eapply (canonical_cofactor i n v p 1%Z); eauto. }
    assert (2 ≤ i) as Hge.
    { destruct i as [|[|i]]; [..|lia].
      - fold nodes in Hn. unfold nodes in Hn.
        rewrite (ROBDD.wf_terminal0 _ store_wf) in Hn.
        by injection Hn as <-.
      - unfold nodes in Hn. rewrite (ROBDD.wf_terminal1 _ store_wf) in Hn.
        by injection Hn as <-. }
    destruct (ROBDD.wf_node _ store_wf i n Hn Hge) as (_ & _ & _ & _ & Hne & _).
    congruence. }
  destruct (lookup_lt_is_Some_2 nodes i Hi) as [ni Hni].
  destruct (lookup_lt_is_Some_2 nodes j Hj) as [nj Hnj].
  destruct (var ni) as [vi|] eqn:Hvi, (var nj) as [vj|] eqn:Hvj.
  - destruct (store_ordered i ni vi Hni Hvi) as (pi & Hpi & _).
    destruct (store_ordered j nj vj Hnj Hvj) as (pj & Hpj & _).
    destruct (lt_eq_lt_dec pi pj) as [[Hlt|Heq]|Hgt].
    + exfalso. eapply (Hlater i j); eauto.
      intros nc w Hnc Hw. exists pj. split; [lia|]. congruence.
    + subst pj. assert (vj = vi) as -> by congruence.
      destruct (store_ordered i ni vi Hni Hvi) as (p' & Hp' & Hli & Hhi).
      assert (p' = pi) as -> by (by eapply NoDup_lookup).
      destruct (store_ordered j nj vi Hnj Hvj) as (p'' & Hp'' & Hlj & Hhj).
      assert (p'' = pi) as -> by (by eapply NoDup_lookup).
      destruct (robdd_wf_children _ store_wf i ni Hni) as [? ?];
        [by rewrite Hvi|].
      destruct (robdd_wf_children _ store_wf j nj Hnj) as [? ?];
        [by rewrite Hvj|].
      assert (v_in : vi ∈ var_order) by (by eapply list_elem_of_lookup_2).
      assert (∀ (b : Z) ci cj,
        (b = 0%Z ∧ ci = low ni ∨ b = 1%Z ∧ ci = high ni) →
        (b = 0%Z ∧ cj = low nj ∨ b = 1%Z ∧ cj = high nj) →
        ci = cj) as Hchild.
      { intros b ci cj Hbi Hbj.
        assert (ci < length nodes ∧ cj < length nodes ∧ ci + cj < m ∧
                above var_order nodes (S pi) ci ∧
                above var_order nodes (S pi) cj) as (? & ? & ? & Habi & Habj).
        { destruct Hbi as [[-> ->]|[-> ->]], Hbj as [[? ->]|[? ->]];
            try discriminate; split_and!; (lia || done). }
        apply IH; [done..|]. intros A HA.
        assert (assignment_over var_order (<[vi:=b]> A)) as HAb.
        { apply assignment_over_insert_same; [done..|]. naive_solver. }
        assert (∀ q w, S pi ≤ q → var_order !! q = Some w →
                  A !! w = <[vi:=b]> A !! w) as Hag.
        { intros q w Hq Hw. rewrite lookup_insert_ne; [done|].
          intros ->. assert (q = pi) by (by eapply NoDup_lookup). lia. }
        destruct (canonical_total _ HAb ci) as (ti & Hri & _); [done|].
        destruct (canonical_total _ HAb cj) as (tj & Hrj & _); [done|].
        assert (reaches nodes (<[vi:=b]> A) i ti) as Hi'.
        { destruct Hbi as [[-> ->]|[-> ->]].
          - eapply reaches_low; [done..|by rewrite lookup_insert_eq|done].
          - eapply reaches_high; [done..|by rewrite lookup_insert_eq|done]. }
        assert (reaches nodes (<[vi:=b]> A) j tj) as Hj'.
        { destruct Hbj as [[-> ->]|[-> ->]].
          - eapply reaches_low; [done..|by rewrite lookup_insert_eq|done].
          - eapply reaches_high; [done..|by rewrite lookup_insert_eq|done]. }
        apply reaches_traverse in Hi'; [|by apply robdd_wf_children].
        apply reaches_traverse in Hj'; [|by apply robdd_wf_children].
        specialize (Hsame _ HAb). rewrite Hi', Hj' in Hsame.
        injection Hsame as <-.
        rewrite (reaches_traverse nodes A ci ti);
          [|by apply robdd_wf_children|by eapply canonical_indep].
        rewrite (reaches_traverse nodes A cj ti);
          [done|by apply robdd_wf_children|by eapply canonical_indep]. }
      assert (low ni = low nj) as Hl by (apply (Hchild 0%Z); auto).
      assert (high ni = high nj) as Hh by (apply (Hchild 1%Z); auto).
      assert (∀ k n, nodes !! k = Some n → var n ≠ None → 2 ≤ k) as Hge.
      { intros [|[|k]] n Hk Hvar; [..|lia]; unfold nodes in Hk.
        - rewrite (ROBDD.wf_terminal0 _ store_wf) in Hk.
          by injection Hk as <-.
        - rewrite (ROBDD.wf_terminal1 _ store_wf) in Hk.
          by injection Hk as <-. }
      destruct (ROBDD.wf_node _ store_wf i ni Hni)
        as (wi & Hwi & _ & _ & _ & Hui); [eapply Hge; [done|by rewrite Hvi]|].
      destruct (ROBDD.wf_node _ store_wf j nj Hnj)
        as (wj & Hwj & _ & _ & _ & Huj); [eapply Hge; [done|by rewrite Hvj]|].
      rewrite Hvi in Hwi. rewrite Hvj in Hwj.
      injection Hwi as <-. injection Hwj as <-.
      rewrite Hl, Hh in Hui. congruence.
    + exfalso. eapply (Hlater j i); eauto; [lia| |].
      * intros nc w Hnc Hw. exists pi. split; [lia|]. congruence.
      * by apply canonical_same_function_sym.
  - destruct (store_ordered i ni vi Hni Hvi) as (pi & Hpi & _).
    exfalso. eapply (Hlater i j); eauto.
    intros nc w Hnc Hw. congruence.
  - destruct (store_ordered j nj vj Hnj Hvj) as (pj & Hpj & _).
    exfalso. eapply (Hlater j i); eauto; [lia| |].
    + intros nc w Hnc Hw. congruence.
    + by apply canonical_same_function_sym.
  - (* two terminals: the walk stops where it starts *)
    destruct (canonical_total (assign var_order (const 0%Z <$> var_order)))
      with (id := i) as (ti & _ & _); [|done|].
    { apply assign_assignment_over; [by rewrite length_fmap|].
      apply Forall_fmap, Forall_forall. intros; simpl; auto. }
    specialize (Hsame (assign var_order (const 0%Z <$> var_order))).
    rewrite (reaches_traverse nodes _ i i) in Hsame;
      [|by apply robdd_wf_children|by eapply reaches_terminal].
    rewrite (reaches_traverse nodes _ j j) in Hsame;
      [|by apply robdd_wf_children|by eapply reaches_terminal].
    assert (Some i = Some j) as [= ->]; [|done].
    apply Hsame. apply assign_assignment_over; [by rewrite length_fmap|].
    apply Forall_fmap, Forall_forall. intros; simpl; auto.
Qed.

End Canonical.

Lemma robdd_final_ordered formula var_order :
  ordered var_order (robdd_store formula var_order).
Proof.
  destruct (robdd_run_ordered _ _ _ _ _ _ _
              (robdd_final_run formula var_order) robdd_init_wf)
    as (Hord & _); [| |done].
  - intros [|[|i]] m u Hm Hu; [by injection Hm as <-..|done].
  - intros idx key i. simpl. by rewrite lookup_empty.
Qed.

Lemma robdd_final_canonical formula var_order i j :
  NoDup var_order →
  i < length (robdd_store formula var_order) →
  j < length (robdd_store formula var_order) →
  same_function var_order (robdd_store formula var_order) i j →
  i = j.
Proof.
  intros Hnd Hi Hj Hsame.
  eapply (canonical_inj_aux var_order _ Hnd
            (robdd_final_wf formula var_order)
            (robdd_final_ordered formula var_order) (S (i + j)));
    [lia|done..].
Qed.

Lemma robdd_final_reaches formula var_order root A :
  robdd_root formula var_order = Return root →
  assignment_over var_order A →
  ∃ val, formula A = inr val ∧
         reaches (robdd_store formula var_order) A root (terminal_of val).
Proof.
  intros Hroot HA.
  destruct (robdd_run_sound _ _ _ _ _ _ _
              (robdd_final_run formula var_order) robdd_init_wf
              (robdd_init_sound _ _)) as [_ Hrep].
  destruct (Hrep root Hroot A (assignment_covers _ _ HA)) as (val & Hf & Hr).
  rewrite drop_0, (extend_assignment _ _ HA) in Hf. eauto.
Qed.

(** For an order without repeated names, the store a reduced build leaves
    holds one node per function: two stored nodes, terminals included, that
    send every complete assignment to the same terminal are the same
    node. *)
Theorem robdd_canonical formula var_order i j :
  NoDup var_order →
  i < length (robdd_store formula var_order) →
  j < length (robdd_store formula var_order) →
  same_function var_order (robdd_store formula var_order) i j →
  i = j.
Proof.
  intros Hnd Hi Hj Hsame.
  eapply (canonical_inj_aux var_order _ Hnd
            (robdd_final_wf formula var_order)
            (robdd_final_ordered formula var_order) (S (i + j)));
    [lia|done..].
Qed.

Lemma robdd_canonical_witness : 4 = 4.
Proof.
  apply (robdd_canonical formula1 order1 4 4).
  - apply (bool_decide_unpack _). vm_compute. exact I.
  - vm_compute. lia.
  - vm_compute. lia.
  - intros A HA. reflexivity.
Defined.

(** For an order without repeated names and an oracle that gives the same
    value [c] (0 or 1) on every assignment, the reduced build allocates
    nothing: it returns the terminal [c] and the store still holds the two
    terminals only. *)
Theorem robdd_constant_oracle formula var_order (c : Z) :
  NoDup var_order →
  c = 0%Z ∨ c = 1%Z →
  (∀ A, assignment_over var_order A → formula A = inr c) →
  robdd_root formula var_order = Return (Z.to_nat c) ∧
  robdd_store formula var_order = [terminal0; terminal1].
Proof.
  intros Hnd Hc Hconst.
  assert (oracle_defined formula var_order) as Hod.
  { intros A HA. exists c. by apply Hconst. }
  destruct (robdd_returns formula var_order Hod) as [root Hroot].
  fold (robdd_root formula var_order) in Hroot.
  pose proof (robdd_final_wf formula var_order) as Hwf.
  pose proof (ROBDD.wf_terminal0 _ Hwf) as H0.
  pose proof (ROBDD.wf_terminal1 _ Hwf) as H1.
  fold (robdd_store formula var_order) in H0, H1.
  destruct (robdd_run_wf _ _ _ _ _ _ _
              (robdd_final_run formula var_order) robdd_init_wf)
    as (_ & _ & Hlt).
  specialize (Hlt root Hroot). fold (robdd_store formula var_order) in Hlt.
  assert (terminal_of c = Z.to_nat c) as Htc.
  { unfold terminal_of. by destruct Hc as [-> | ->]. }
  assert (∃ n, robdd_store formula var_order !! Z.to_nat c = Some n ∧
               var n = None) as (nc & Hnc & Hvc).
  { destruct Hc as [-> | ->]; simpl; eauto. }
  assert (root = Z.to_nat c) as ->.
  { apply (robdd_final_canonical formula var_order); [done|done| |].
    - by apply lookup_lt_Some in Hnc.
    - intros A HA.
      destruct (robdd_final_reaches _ _ _ _ Hroot HA) as (val & Hval & Hr).
      rewrite (Hconst A HA) in Hval. injection Hval as <-.
      rewrite Htc in Hr.
      etrans; [apply (reaches_traverse _ _ _ _
                        (robdd_wf_children _ Hwf) Hr)|].
      symmetry. apply reaches_traverse.
      + apply robdd_wf_children, robdd_final_wf.
      + by eapply reaches_terminal. }
  split; [done|].
  assert (¬ 2 < length (robdd_store formula var_order)) as Hlen.
  { intros Hlen.
    pose proof (robdd_run_descends _ _ _ _ _ _ _
                  (robdd_final_run formula var_order) robdd_init_wf
                  _ Hroot 2) as Hd.
    fold (robdd_store formula var_order) in Hd.
    specialize (Hd (conj (le_n 2) Hlen)).
    inversion Hd as [? Heq|? n ? Hn Hvn _|? n ? Hn Hvn _]; subst.
    - lia.
    - rewrite Hnc in Hn. by injection Hn as <-.
    - rewrite Hnc in Hn. by injection Hn as <-. }
  destruct (robdd_store formula var_order) as [|t0 [|t1 [|n2 rest]]];
    simpl in *; [done|done| |lia].
  by injection H0 as <-; injection H1 as <-.
Qed.

Lemma robdd_constant_oracle_witness :
  robdd_root (λ _, inr 1%Z) order1 = Return (Z.to_nat 1) ∧
  robdd_store (λ _, inr 1%Z) order1 = [terminal0; terminal1].
Proof.
  apply (robdd_constant_oracle (λ _, inr 1%Z) order1 1%Z).
  - apply (bool_decide_unpack _). vm_compute. exact I.
  - right. reflexivity.
  - intros A HA. reflexivity.
Defined.

(** * The exporters *)

(** ** Strings *)

Lemma string_app_length (s t : string) :
  String.length (s +:+ t) = String.length s + String.length t.
Proof.
  induction s as [|a s IH]; [done|].
  change (S (String.length (s +:+ t)) = S (String.length s + String.length t)).
  by rewrite IH.
Qed.

Lemma string_app_inj_r (s1 s2 t : string) :
  s1 +:+ t = s2 +:+ t → s1 = s2.
Proof.
  revert s2. induction s1 as [|a s1 IH]; intros [|b s2] Heq.
  - done.
  - apply (f_equal String.length) in Heq.
    rewrite !string_app_length in Heq. simpl in Heq. lia.
  - apply (f_equal String.length) in Heq.
    rewrite !string_app_length in Heq. simpl in Heq. lia.
  - change (String a (s1 +:+ t) = String b (s2 +:+ t)) in Heq.
    injection Heq as -> Heq. f_equal. by apply IH.
Qed.

(** A number printed before a fixed text is read back from the two. *)
Lemma pretty_app_inj (a b : nat) (t : string) :
  pretty a +:+ t = pretty b +:+ t → a = b.
Proof. intros H%string_app_inj_r. by apply (inj pretty). Qed.

Lemma low_edge_line_inj k n n' :
  low_edge_line k n = low_edge_line k n' → low n = low n'.
Proof.
  unfold low_edge_line. intros H.
  do 3 apply (inj (String.app _)) in H. by apply pretty_app_inj in H.
Qed.

Lemma high_edge_line_inj k n n' :
  high_edge_line k n = high_edge_line k n' → high n = high n'.
Proof.
  unfold high_edge_line. intros H.
  do 3 apply (inj (String.app _)) in H. by apply pretty_app_inj in H.
Qed.

Lemma decl_line_inj k n n' :
  decl_line k n = decl_line k n' → fmt_var (var n) = fmt_var (var n').
Proof.
  unfold decl_line. intros H.
  do 4 apply (inj (String.app _)) in H. by apply string_app_inj_r in H.
Qed.

Lemma root_line_inj r r' : root_line r = root_line r' → r = r'.
Proof.
  unfold root_line. intros H.
  apply (inj (String.app _)) in H. by apply pretty_app_inj in H.
Qed.

Lemma low_report_line_inj k n n' :
  low_report_line k n = low_report_line k n' → low n = low n'.
Proof.
  unfold low_report_line. intros H.
  do 3 apply (inj (String.app _)) in H. by apply (inj pretty) in H.
Qed.

Lemma high_report_line_inj k n n' :
  high_report_line k n = high_report_line k n' → high n = high n'.
Proof.
  unfold high_report_line. intros H.
  do 3 apply (inj (String.app _)) in H. by apply (inj pretty) in H.
Qed.

Lemma node_report_line_inj k n n' :
  low n = low n' → high n = high n' →
  node_report_line k n = node_report_line k n' →
  fmt_var (var n) = fmt_var (var n').
Proof.
  unfold node_report_line. intros -> -> H.
  do 3 apply (inj (String.app _)) in H. by apply string_app_inj_r in H.
Qed.

(** ** The loops over the decision nodes *)

Lemma flat_map_seq_lookup (body : nat → Node → list string) :
  ∀ (l pre : list Node),
    flat_map (λ nid, match (pre ++ l) !! nid with
                     | Some n => body nid n
                     | None => []
                     end)
             (seq (length pre) (length l))
    = concat (imap (λ i n, body (length pre + i) n) l).
Proof.
  induction l as [|x l IH]; intros pre; [done|].
  cbn [length seq flat_map]. rewrite imap_cons. cbn [concat].
  rewrite lookup_app_r, Nat.sub_diag, Nat.add_0_r by lia. cbn [lookup].
  simpl. f_equal.
  specialize (IH (pre ++ [x])). rewrite <- app_assoc in IH. simpl in IH.
  rewrite length_app in IH. simpl in IH. rewrite Nat.add_1_r in IH.
  rewrite IH. f_equal. apply imap_ext. intros i n _. simpl.
  f_equal. lia.
Qed.

(** The loop visits the nodes from id 2 on, in order, each with its id. *)
Lemma node_lines_imap nodes body :
  node_lines nodes body
  = concat (imap (λ i n, body (2 + i) n) (drop 2 nodes)).
Proof.
  unfold node_lines.
  destruct (decide (2 ≤ length nodes)) as [Hge|Hlt].
  - pose proof (flat_map_seq_lookup body (drop 2 nodes) (take 2 nodes)) as H.
    rewrite take_drop, length_take, length_drop in H.
    rewrite Nat.min_l in H by lia. exact H.
  - replace (length nodes - 2) with 0 by lia.
    rewrite drop_ge by lia. done.
Qed.

Lemma elem_of_node_lines nodes body (l : string) :
  l ∈ node_lines nodes body ↔
  ∃ nid n, 2 ≤ nid ∧ nodes !! nid = Some n ∧ l ∈ body nid n.
Proof.
  unfold node_lines. rewrite list_elem_of_In, in_flat_map. split.
  - intros (nid & [Hge Hlt]%in_seq & Hin).
    destruct (nodes !! nid) as [n|] eqn:Hn; [|done].
    exists nid, n. by rewrite list_elem_of_In.
  - intros (nid & n & Hge & Hn & Hin). exists nid. rewrite Hn. split.
    + apply in_seq. apply lookup_lt_Some in Hn. lia.
    + by apply list_elem_of_In.
Qed.

Lemma concat_imap_length c : ∀ (l : list Node) (f : nat → Node → list string),
  (∀ k n, length (f k n) = c) →
  length (concat (imap f l)) = c * length l.
Proof.
  induction l as [|x l IH]; intros f Hc; simpl; [lia|].
  rewrite length_app, Hc, IH; [lia|]. intros k n. apply Hc.
Qed.

Lemma node_lines_length nodes (body : nat → Node → list string) c :
  (∀ k n, length (body k n) = c) →
  length (node_lines nodes body) = c * (length nodes - 2).
Proof.
  intros Hc. rewrite node_lines_imap, (concat_imap_length c).
  - by rewrite length_drop.
  - intros k n. apply Hc.
Qed.

Lemma concat_imap_inj c :
  ∀ (l l' : list Node) (f : nat → Node → list string),
    (∀ k n, length (f k n) = c) →
    length l = length l' →
    concat (imap f l) = concat (imap f l') →
    Forall2 (λ n n', ∃ k, f k n = f k n') l l'.
Proof.
  induction l as [|x l IH]; intros [|x' l'] f Hc Hlen Heq;
    try done; try (by constructor).
  simpl in Heq, Hlen.
  apply app_inj_1 in Heq as [Hx Hrest]; [|by rewrite !Hc].
  constructor; [by eexists|].
  eapply Forall2_impl.
  - apply (IH l' (f ∘ S)); [intros k n; apply Hc|lia|done].
  - intros n n' [k Hk]. by exists (S k).
Qed.

(** ** What is exported *)

Lemma dot_lines_length name nodes root :
  length (dot_lines name nodes root) = 7 + 3 * (length nodes - 2).
Proof.
  unfold dot_lines. rewrite !length_app.
  rewrite (node_lines_length nodes _ 1) by done.
  rewrite (node_lines_length nodes _ 2) by done.
  simpl. lia.
Qed.

Lemma print_nodes_edges_length repr_str title var_order nodes root :
  length (print_nodes_edges repr_str title var_order nodes root)
    = 9 + 3 * (length nodes - 2).
Proof.
  unfold print_nodes_edges. rewrite !length_app.
  rewrite (node_lines_length nodes _ 1) by done.
  rewrite (node_lines_length nodes _ 2) by done.
  simpl. lia.
Qed.

(** [write_dot] builds seven fixed lines and three lines per decision
    node; [print_nodes_edges] prints nine fixed lines and three lines per
    decision node.  A store with fewer than two nodes gives the fixed lines
    only. *)
Theorem export_line_counts repr_str name title var_order nodes root :
  length (dot_lines name nodes root) = 7 + 3 * (length nodes - 2) ∧
  length (print_nodes_edges repr_str title var_order nodes root)
    = 9 + 3 * (length nodes - 2).
Proof.
  split; [apply dot_lines_length|apply print_nodes_edges_length].
Qed.

(** The lines of [write_dot] between the header and the footer are exactly
    the declaration, the dashed low edge and the solid high edge of every
    node stored at an id from 2 on; the two terminals get no line but the
    boxes of the header. *)
Theorem dot_lines_content name nodes root (l : string) :
  l ∈ dot_lines name nodes root ↔
  l ∈ dot_header name ∨
  (∃ nid n, 2 ≤ nid ∧ nodes !! nid = Some n ∧
     (l = decl_line nid n ∨ l = low_edge_line nid n ∨
      l = high_edge_line nid n)) ∨
  l ∈ dot_footer root.
Proof.
  unfold dot_lines. rewrite !elem_of_app, !elem_of_node_lines.
  split.
  - intros [?|[(nid & n & ? & ? & Hl)|[(nid & n & ? & ? & Hl)|?]]]; auto;
      right; left; exists nid, n; split_and!; try done.
    + apply list_elem_of_singleton in Hl. auto.
    + apply elem_of_cons in Hl as [?|Hl]; [auto|].
      apply list_elem_of_singleton in Hl. auto.
  - intros [?|[(nid & n & ? & ? & [-> | [-> | ->]])|?]]; auto.
    + right; left. exists nid, n. split_and!; [done..|]. by left.
    + right; right; left. exists nid, n. split_and!; [done..|]. by left.
    + right; right; left. exists nid, n. split_and!; [done..|].
      right. by left.
Qed.

Lemma fmt_var_inj n n' :
  var n ≠ None → var n' ≠ None →
  fmt_var (var n) = fmt_var (var n') → var n = var n'.
Proof. destruct (var n), (var n'); simpl; congruence. Qed.

Lemma decisions_from_2_drop nodes :
  decisions_from_2 nodes → Forall (λ n, var n ≠ None) (drop 2 nodes).
Proof.
  intros Hd. apply Forall_lookup. intros i n Hn.
  rewrite lookup_drop in Hn. by apply (Hd (2 + i) n); [|lia].
Qed.

Lemma Forall2_fields_eq (l l' : list Node) :
  Forall (λ n, var n ≠ None) l → Forall (λ n, var n ≠ None) l' →
  Forall2 (λ n n', fmt_var (var n) = fmt_var (var n')) l l' →
  Forall2 (λ n n', low n = low n' ∧ high n = high n') l l' →
  l = l'.
Proof.
  intros Hl Hl' Hv. revert Hl Hl'.
  induction Hv as [|n n' l l' Hvar _ IH]; intros Hl Hl' Hlh; [done|].
  apply Forall_cons in Hl as [Hn Hl]. apply Forall_cons in Hl' as [Hn' Hl'].
  apply Forall2_cons in Hlh as [[Hlow Hhigh] Hlh].
  f_equal; [|by apply IH].
  apply fmt_var_inj in Hvar; [|done..].
  destruct n, n'; simpl in *; congruence.
Qed.

(** The lines of [write_dot] lose nothing: two stores whose nodes from id 2
    on all test a variable, exported with their roots to the same lines,
    hold the same decision nodes at the same ids and have the same root. *)
Theorem dot_lines_lossless name nodes nodes' root root' :
  decisions_from_2 nodes → decisions_from_2 nodes' →
  dot_lines name nodes root = dot_lines name nodes' root' →
  drop 2 nodes = drop 2 nodes' ∧ root = root'.
Proof.
  intros Hd Hd' Heq.
  assert (length (drop 2 nodes) = length (drop 2 nodes')) as Hlen.
  { apply (f_equal length) in Heq.
    rewrite !dot_lines_length in Heq.
    rewrite !length_drop. lia. }
  unfold dot_lines in Heq. apply app_inv_head in Heq.
  rewrite !node_lines_imap in Heq.
  apply app_inj_1 in Heq as [Hdecl Heq];
    [|by rewrite !(concat_imap_length 1), Hlen].
  apply app_inj_1 in Heq as [Hedge Hfoot];
    [|by rewrite !(concat_imap_length 2), Hlen].
  split.
  - apply concat_imap_inj with (c := 1) in Hdecl; [|done..].
    apply concat_imap_inj with (c := 2) in Hedge; [|done..].
    apply Forall2_fields_eq; [by apply decisions_from_2_drop..| |].
    + eapply Forall2_impl; [exact Hdecl|]. intros n n' [k Hk].
      apply (decl_line_inj (2 + k)). congruence.
    + eapply Forall2_impl; [exact Hedge|]. intros n n' [k Hk].
      split; [apply (low_edge_line_inj (2 + k))
             |apply (high_edge_line_inj (2 + k))]; congruence.
  - apply root_line_inj. unfold dot_footer in Hfoot. congruence.
Qed.

Lemma robdd_wf_decisions s : ROBDD.wf s → decisions_from_2 (ROBDD.nodes s).
Proof.
  intros Hwf id n Hn Hge.
  destruct (ROBDD.wf_node _ Hwf id n Hn Hge) as (v & -> & _). done.
Qed.

Lemma bdd_wf_decisions s : BDD.wf s → decisions_from_2 (BDD.nodes s).
Proof.
  intros Hwf id n Hn Hge.
  destruct (BDD.wf_node _ Hwf id n Hn Hge) as (v & -> & _). done.
Qed.

Lemma dot_lines_lossless_witness :
  drop 2 (robdd_store formula1 order1) = drop 2 (robdd_store formula1 order1)
  ∧ 6 = 6.
Proof.
  apply (dot_lines_lossless "ROBDD" (robdd_store formula1 order1)
           (robdd_store formula1 order1) 6 6).
  - apply robdd_wf_decisions, robdd_final_wf.
  - apply robdd_wf_decisions, robdd_final_wf.
  - reflexivity.
Defined.

Lemma Forall2_report_vars (l l' : list Node) :
  Forall2 (λ n n', ∃ k, [node_report_line (2 + k) n]
                        = [node_report_line (2 + k) n']) l l' →
  Forall2 (λ n n', low n = low n' ∧ high n = high n') l l' →
  Forall2 (λ n n', fmt_var (var n) = fmt_var (var n')) l l'.
Proof.
  induction 1 as [|n n' l l' [k Hk] _ IH]; intros Hlh; [constructor|].
  apply Forall2_cons in Hlh as [[Hlo Hhi] Hlh].
  constructor; [|by apply IH].
  apply (node_report_line_inj (2 + k)); [done..|congruence].
Qed.

(** The report of [print_nodes_edges] loses nothing either: two stores
    whose nodes from id 2 on all test a variable, printed with their roots
    to the same lines, hold the same decision nodes at the same ids and
    have the same root. *)
Theorem report_lossless repr_str title var_order nodes nodes' root root' :
  decisions_from_2 nodes → decisions_from_2 nodes' →
  print_nodes_edges repr_str title var_order nodes root
    = print_nodes_edges repr_str title var_order nodes' root' →
  drop 2 nodes = drop 2 nodes' ∧ root = root'.
Proof.
  intros Hd Hd' Heq.
  assert (length (drop 2 nodes) = length (drop 2 nodes')) as Hlen.
  { apply (f_equal length) in Heq.
    rewrite !print_nodes_edges_length in Heq.
    rewrite !length_drop. lia. }
  unfold print_nodes_edges in Heq.
  apply app_inj_1 in Heq as [Hfix Heq]; [|done].
  rewrite !node_lines_imap in Heq.
  apply app_inj_1 in Heq as [Hnode Heq];
    [|by rewrite !(concat_imap_length 1), Hlen].
  apply app_inj_1 in Heq as [_ Hedge]; [|done].
  apply concat_imap_inj with (c := 1) in Hnode; [|done..].
  apply concat_imap_inj with (c := 2) in Hedge; [|done..].
  assert (Forall2 (λ n n', low n = low n' ∧ high n = high n')
            (drop 2 nodes) (drop 2 nodes')) as Hlh.
  { eapply Forall2_impl; [exact Hedge|]. intros n n' [k Hk].
    split; [apply (low_report_line_inj (2 + k))
           |apply (high_report_line_inj (2 + k))]; congruence. }
  split.
  - apply Forall2_fields_eq; [by apply decisions_from_2_drop..| |done].
    by apply Forall2_report_vars.
  - assert ("Root id: " +:+ pretty root = "Root id: " +:+ pretty root')
      as Hroot by congruence.
    apply (inj (String.app _)) in Hroot. by apply (inj pretty) in Hroot.
Qed.

Lemma report_lossless_witness :
  drop 2 (bdd_store formula1 order1) = drop 2 (bdd_store formula1 order1)
  ∧ 16 = 16.
Proof.
  apply (report_lossless id "BDD (not reduced)" order1
           (bdd_store formula1 order1) (bdd_store formula1 order1) 16 16).
  - apply bdd_wf_decisions, bdd_final_wf.
  - apply bdd_wf_decisions, bdd_final_wf.
  - reflexivity.
Defined.

(** ** Building, then exporting *)

Lemma declared_stored name nodes root c :
  c < length nodes → declared (dot_lines name nodes root) c.
Proof.
  intros Hc. destruct (decide (c < 2)) as [?|Hge]; [by left|right].
  destruct (lookup_lt_is_Some_2 nodes c Hc) as [n Hn].
  exists n. unfold dot_lines. rewrite !elem_of_app, elem_of_node_lines.
  right; left. exists c, n. split_and!; [lia|done|by left].
Qed.

(** The graph [write_dot] draws for a built diagram has no dangling edge:
    for the store either build leaves, the two children of every decision
    node, and the root when the build returned one, are boxed terminals or
    nodes that the lines declare. *)
Theorem dot_edges_declared formula var_order name r :
  (∀ nid n, robdd_store formula var_order !! nid = Some n → 2 ≤ nid →
     declared (dot_lines name (robdd_store formula var_order) r) (low n) ∧
     declared (dot_lines name (robdd_store formula var_order) r) (high n)) ∧
  (∀ root, robdd_root formula var_order = Return root →
     declared (dot_lines name (robdd_store formula var_order) r) root) ∧
  (∀ nid n, bdd_store formula var_order !! nid = Some n → 2 ≤ nid →
     declared (dot_lines name (bdd_store formula var_order) r) (low n) ∧
     declared (dot_lines name (bdd_store formula var_order) r) (high n)) ∧
  (∀ root, bdd_root formula var_order = Return root →
     declared (dot_lines name (bdd_store formula var_order) r) root).
Proof.
  split_and!.
  - intros nid n Hn Hge.
    pose proof (robdd_final_wf formula var_order) as Hwf.
    destruct (ROBDD.wf_node _ Hwf nid n Hn Hge) as (v & _ & Hl & Hh & _).
    apply lookup_lt_Some in Hn.
    split; apply declared_stored; lia.
  - intros root Hroot. apply declared_stored.
    destruct (robdd_run_wf _ _ _ _ _ _ _
                (robdd_final_run formula var_order) robdd_init_wf)
      as (_ & _ & Hlt). by apply Hlt.
  - intros nid n Hn Hge.
    pose proof (bdd_final_wf formula var_order) as Hwf.
    destruct (BDD.wf_node _ Hwf nid n Hn Hge) as (v & _ & Hl & Hh).
    apply lookup_lt_Some in Hn.
    split; apply declared_stored; lia.
  - intros root Hroot. apply declared_stored.
    destruct (bdd_run_wf _ _ _ _ _ _ _
                (bdd_final_run formula var_order) bdd_init_wf)
      as (_ & _ & Hlt). by apply Hlt.
Qed.

Lemma dot_edges_declared_witness :
  declared (dot_lines "ROBDD" (robdd_store formula1 order1) 6) 6.
Proof.
  apply (proj1 (proj2 (dot_edges_declared formula1 order1 "ROBDD" 6)) 6).
  vm_compute. reflexivity.
Defined.

(** * The oracles *)

(** The two formulas compute what their comments say.  On every assignment
    over the configured order, [formula] of the [formula1] files is
    (a and not c) or (b xor d) read on truth values, and [formula] of
    [formula2_just_bdd.py] is 1 exactly when at least three of x1..x5 are
    1. *)
Theorem formulas_documented :
  (∀ A, assignment_over order1 A →
     formula1 A = inr (Z.b2z ((bit A "a" && negb (bit A "c"))
                              || xorb (bit A "b") (bit A "d")))) ∧
  (∀ A, assignment_over order2 A →
     formula2 A = inr (Z.b2z (bool_decide (3 ≤ ones A)))).
Proof.
  split; intros A HA; pose proof (assignment_covers _ _ HA) as Hc;
    rewrite (assignment_assign _ _ HA); simpl.
  - destruct (Hc "a"%string) as [-> | ->]; [solve_elem_of|..];
    (destruct (Hc "c"%string) as [-> | ->]; [solve_elem_of|..]);
    (destruct (Hc "b"%string) as [-> | ->]; [solve_elem_of|..]);
    (destruct (Hc "d"%string) as [-> | ->]; [solve_elem_of|..]);
    vm_compute; reflexivity.
  - destruct (Hc "x1"%string) as [-> | ->]; [solve_elem_of|..];
    (destruct (Hc "x2"%string) as [-> | ->]; [solve_elem_of|..]);
    (destruct (Hc "x3"%string) as [-> | ->]; [solve_elem_of|..]);
    (destruct (Hc "x4"%string) as [-> | ->]; [solve_elem_of|..]);
    (destruct (Hc "x5"%string) as [-> | ->]; [solve_elem_of|..]);
    vm_compute; reflexivity.
Qed.

Lemma formulas_documented_witness :
  formula1 scenarioA_1
  = inr (Z.b2z ((bit scenarioA_1 "a" && negb (bit scenarioA_1 "c"))
                || xorb (bit scenarioA_1 "b") (bit scenarioA_1 "d"))).
Proof.
  apply (proj1 formulas_documented scenarioA_1).
  apply assign_assignment_over; [reflexivity|].
  repeat (apply Forall_cons_2; [auto|]). apply Forall_nil_2.
Defined.

Lemma formula1_cases (env : Env) :
  match first_missing keys1 env with
  | Some k => formula1 env = inl (KeyError k)
  | None => ∃ val, formula1 env = inr val ∧ (val = 0%Z ∨ val = 1%Z)
  end.
Proof.
  unfold first_missing, keys1, formula1, getitem.
  rewrite !filter_cons, filter_nil.
  destruct (env !! "a"%string) as [a|]; [|by rewrite decide_True].
  rewrite decide_False by done.
  destruct (env !! "b"%string) as [b|]; [|by rewrite decide_True].
  rewrite decide_False by done.
  destruct (env !! "c"%string) as [c|]; [|by rewrite decide_True].
  rewrite decide_False by done.
  destruct (env !! "d"%string) as [d|]; [|by rewrite decide_True].
  rewrite decide_False by done. simpl.
  eexists. split; [done|]. case_decide; auto.
Qed.

Lemma formula2_cases (env : Env) :
  match first_missing keys2 env with
  | Some k => formula2 env = inl (KeyError k)
  | None => ∃ val, formula2 env = inr val ∧ (val = 0%Z ∨ val = 1%Z)
  end.
Proof.
  unfold first_missing, keys2, formula2, getitem.
  rewrite !filter_cons, filter_nil.
  destruct (env !! "x1"%string) as [x1|]; [|by rewrite decide_True].
  rewrite decide_False by done.
  destruct (env !! "x2"%string) as [x2|]; [|by rewrite decide_True].
  rewrite decide_False by done.
  destruct (env !! "x3"%string) as [x3|]; [|by rewrite decide_True].
  rewrite decide_False by done.
  destruct (env !! "x4"%string) as [x4|]; [|by rewrite decide_True].
  rewrite decide_False by done.
  destruct (env !! "x5"%string) as [x5|]; [|by rewrite decide_True].
  rewrite decide_False by done. simpl.
  eexists. split; [done|]. case_decide; auto.
Qed.

(** What the formulas do on any dictionary, whatever integers it holds and
    whatever other keys: with all the keys they look up bound they return 0
    or 1; otherwise they raise [KeyError] for the first unbound key in
    their lookup order (a, b, c, d, not the variable order a, c, b, d). *)
Theorem formulas_key_error (env : Env) :
  match first_missing keys1 env with
  | Some k => formula1 env = inl (KeyError k)
  | None => ∃ val, formula1 env = inr val ∧ (val = 0%Z ∨ val = 1%Z)
  end ∧
  match first_missing keys2 env with
  | Some k => formula2 env = inl (KeyError k)
  | None => ∃ val, formula2 env = inr val ∧ (val = 0%Z ∨ val = 1%Z)
  end.
Proof. split; [apply formula1_cases|apply formula2_cases]. Qed.

(** * When the oracle raises *)

Section Abort.

Variable formula : Env → exn + Z.
Variable var_order : list string.

(** Within the order, a call that raises stops at the invocation of the
    oracle that raised: it is the last one logged, and every invocation
    before it in the call returned. *)
Lemma robdd_run_abort idx env s r s' :
  ROBDD.run formula var_order idx env s r s' →
  idx ≤ length var_order →
  ∃ new, ROBDD.calls s' = new ++ ROBDD.calls s ∧
    match r with
    | Return _ => Forall (λ A, ∃ val, formula A = inr val) new
    | Raise e => ∃ A rest, new = A :: rest ∧ formula A = inl e ∧
                   Forall (λ A, ∃ val, formula A = inr val) rest
    | Fuel => True
    end.
Proof.
  induction 1 as
    [idx env s out Hm
    |idx env s val Hm Hidx Hf
    |idx env s e Hm Hidx Hf
    |idx env s Hm Hidx Hv
    |idx env s v e s1 Hm Hidx Hv _ IH0
    |idx env s v low_id s1 e s2 Hm Hidx Hv _ IH0 _ IH1
    |idx env s v low_id s1 high_id s2 out s3 Hm Hidx Hv _ IH0 _ IH1 Hmk];
    intros Hle.
  - exists []. split; [done|constructor].
  - exists [env]. split; [done|]. constructor; [eauto|constructor].
  - exists [env]. split; [done|]. exists env, []. split_and!; [done..|constructor].
  - apply lookup_ge_None in Hv. lia.
  - pose proof (lookup_lt_Some _ _ _ Hv) as Hlt.
    destruct IH0 as (new & Hc & Hnew); [lia|]. by exists new.
  - pose proof (lookup_lt_Some _ _ _ Hv) as Hlt.
    destruct IH0 as (n0 & Hc0 & Hn0); [lia|].
    destruct IH1 as (n1 & Hc1 & A & rest & -> & HA & Hrest); [lia|].
    exists ((A :: rest) ++ n0). split.
    + rewrite Hc1, Hc0. simpl. by rewrite app_assoc.
    + exists A, (rest ++ n0). split_and!; [done..|by apply Forall_app].
  - pose proof (lookup_lt_Some _ _ _ Hv) as Hlt.
    destruct IH0 as (n0 & Hc0 & Hn0); [lia|].
    destruct IH1 as (n1 & Hc1 & Hn1); [lia|].
    destruct (robdd_mk_nodes _ _ _ _ _ _ Hmk) as (_ & _ & Hc3 & _).
    exists (n1 ++ n0). split.
    + simpl. rewrite Hc3, Hc1, Hc0. simpl. by rewrite app_assoc.
    + by apply Forall_app.
Qed.

Lemma bdd_run_abort idx env s r s' :
  BDD.run formula var_order idx env s r s' →
  idx ≤ length var_order →
  ∃ new, BDD.calls s' = new ++ BDD.calls s ∧
    match r with
    | Return _ => Forall (λ A, ∃ val, formula A = inr val) new
    | Raise e => ∃ A rest, new = A :: rest ∧ formula A = inl e ∧
                   Forall (λ A, ∃ val, formula A = inr val) rest
    | Fuel => True
    end.
Proof.
  induction 1 as
    [idx env s val Hidx Hf
    |idx env s e Hidx Hf
    |idx env s Hidx Hv
    |idx env s v e s1 Hidx Hv _ IH0
    |idx env s v low_id s1 e s2 Hidx Hv _ IH0 _ IH1
    |idx env s v low_id s1 high_id s2 out s3 Hidx Hv _ IH0 _ IH1 Hmk];
    intros Hle.
  - exists [env]. split; [done|]. constructor; [eauto|constructor].
  - exists [env]. split; [done|]. exists env, []. split_and!; [done..|constructor].
  - apply lookup_ge_None in Hv. lia.
  - pose proof (lookup_lt_Some _ _ _ Hv) as Hlt.
    destruct IH0 as (new & Hc & Hnew); [lia|]. by exists new.
  - pose proof (lookup_lt_Some _ _ _ Hv) as Hlt.
    destruct IH0 as (n0 & Hc0 & Hn0); [lia|].
    destruct IH1 as (n1 & Hc1 & A & rest & -> & HA & Hrest); [lia|].
    exists ((A :: rest) ++ n0). split.
    + rewrite Hc1, Hc0. by rewrite app_assoc.
    + exists A, (rest ++ n0). split_and!; [done..|by apply Forall_app].
  - pose proof (lookup_lt_Some _ _ _ Hv) as Hlt.
    destruct IH0 as (n0 & Hc0 & Hn0); [lia|].
    destruct IH1 as (n1 & Hc1 & Hn1); [lia|].
    injection Hmk as <- <-. simpl.
    exists (n1 ++ n0). split.
    + rewrite Hc1, Hc0. by rewrite app_assoc.
    + by apply Forall_app.
Qed.

(** With an oracle that raises on every assignment over the order, a call
    on a fresh memo table raises at its first leaf. *)
Lemma robdd_run_all_raise idx env s r s' :
  (∀ A, assignment_over var_order A → ∃ e, formula A = inl e) →
  ROBDD.run formula var_order idx env s r s' →
  idx ≤ length var_order →
  assignment_over (take idx var_order) env →
  ROBDD.memo s = ∅ →
  ∃ e A, r = Raise e ∧ formula A = inl e ∧ assignment_over var_order A ∧
         ROBDD.nodes s' = ROBDD.nodes s ∧
         ROBDD.calls s' = A :: ROBDD.calls s ∧
         ROBDD.memo s' = ∅.
Proof.
  intros Hall.
  induction 1 as
    [idx env s out Hm
    |idx env s val Hm Hidx Hf
    |idx env s e Hm Hidx Hf
    |idx env s Hm Hidx Hv
    |idx env s v e s1 Hm Hidx Hv _ IH0
    |idx env s v low_id s1 e s2 Hm Hidx Hv _ IH0 _ IH1
    |idx env s v low_id s1 high_id s2 out s3 Hm Hidx Hv _ IH0 _ IH1 Hmk];
    intros Hle Henv Hempty.
  - rewrite Hempty, lookup_empty in Hm. done.
  - subst idx. rewrite firstn_all in Henv.
    destruct (Hall env Henv) as [e He]. congruence.
  - subst idx. rewrite firstn_all in Henv. by exists e, env.
  - apply lookup_ge_None in Hv. lia.
  - pose proof (lookup_lt_Some _ _ _ Hv) as Hlt.
    destruct IH0 as (e' & A & [= <-] & ? & ? & ? & ? & ?); [lia| |done|].
    { eapply assignment_over_insert; eauto. }
    by exists e, A.
  - pose proof (lookup_lt_Some _ _ _ Hv) as Hlt.
    destruct IH0 as (e' & A & [=] & _); [lia| |done].
    eapply assignment_over_insert; eauto.
  - pose proof (lookup_lt_Some _ _ _ Hv) as Hlt.
    destruct IH0 as (e' & A & [=] & _); [lia| |done].
    eapply assignment_over_insert; eauto.
Qed.

Lemma bdd_run_all_raise idx env s r s' :
  (∀ A, assignment_over var_order A → ∃ e, formula A = inl e) →
  BDD.run formula var_order idx env s r s' →
  idx ≤ length var_order →
  assignment_over (take idx var_order) env →
  ∃ e A, r = Raise e ∧ formula A = inl e ∧ assignment_over var_order A ∧
         BDD.nodes s' = BDD.nodes s ∧
         BDD.calls s' = A :: BDD.calls s.
Proof.
  intros Hall.
  induction 1 as
    [idx env s val Hidx Hf
    |idx env s e Hidx Hf
    |idx env s Hidx Hv
    |idx env s v e s1 Hidx Hv _ IH0
    |idx env s v low_id s1 e s2 Hidx Hv _ IH0 _ IH1
    |idx env s v low_id s1 high_id s2 out s3 Hidx Hv _ IH0 _ IH1 Hmk];
    intros Hle Henv.
  - subst idx. rewrite firstn_all in Henv.
    destruct (Hall env Henv) as [e He]. congruence.
  - subst idx. rewrite firstn_all in Henv. by exists e, env.
  - apply lookup_ge_None in Hv. lia.
  - pose proof (lookup_lt_Some _ _ _ Hv) as Hlt.
    destruct IH0 as (e' & A & [= <-] & ? & ? & ? & ?); [lia| |].
    { eapply assignment_over_insert; eauto. }
    by exists e, A.
  - pose proof (lookup_lt_Some _ _ _ Hv) as Hlt.
    destruct IH0 as (e' & A & [=] & _); [lia|].
    eapply assignment_over_insert; eauto.
  - pose proof (lookup_lt_Some _ _ _ Hv) as Hlt.
    destruct IH0 as (e' & A & [=] & _); [lia|].
    eapply assignment_over_insert; eauto.
Qed.

End Abort.

(** A build that raises has stopped at the invocation of the oracle that
    raised: that invocation is the last one made, and all the invocations
    before it returned.  In both variants. *)
Theorem build_aborts_at_first_exception formula var_order e :
  (robdd_root formula var_order = Raise e →
     ∃ A rest, robdd_calls formula var_order = A :: rest ∧
       formula A = inl e ∧
       Forall (λ A', ∃ val, formula A' = inr val) rest) ∧
  (bdd_root formula var_order = Raise e →
     ∃ A rest, bdd_calls formula var_order = A :: rest ∧
       formula A = inl e ∧
       Forall (λ A', ∃ val, formula A' = inr val) rest).
Proof.
  split; intros Hroot.
  - destruct (robdd_run_abort _ _ _ _ _ _ _
                (robdd_final_run formula var_order)) as (new & Hc & Hnew);
      [lia|].
    unfold robdd_root in Hroot. rewrite Hroot in Hnew.
    destruct Hnew as (A & rest & -> & HA & Hrest).
    exists A, rest. unfold robdd_calls. rewrite Hc. simpl.
    by rewrite app_nil_r.
  - destruct (bdd_run_abort _ _ _ _ _ _ _
                (bdd_final_run formula var_order)) as (new & Hc & Hnew);
      [lia|].
    unfold bdd_root in Hroot. rewrite Hroot in Hnew.
    destruct Hnew as (A & rest & -> & HA & Hrest).
    exists A, rest. unfold bdd_calls. rewrite Hc. simpl.
    by rewrite app_nil_r.
Qed.

Lemma build_aborts_at_first_exception_witness :
  ∃ A rest, robdd_calls formula1 ["a"; "a"]%string = A :: rest ∧
    formula1 A = inl (KeyError "b") ∧
    Forall (λ A', ∃ val, formula1 A' = inr val) rest.
Proof.
  apply (proj1 (build_aborts_at_first_exception formula1
                  ["a"; "a"]%string (KeyError "b"))).
  vm_compute. reflexivity.
Defined.

(** With an oracle that raises on every assignment over the order, either
    build raises what the oracle raised at the first leaf: the oracle was
    invoked once and no node was stored. *)
Theorem build_all_raise formula var_order :
  (∀ A, assignment_over var_order A → ∃ e, formula A = inl e) →
  (∃ e A, robdd_root formula var_order = Raise e ∧ formula A = inl e ∧
          robdd_calls formula var_order = [A] ∧
          robdd_store formula var_order = [terminal0; terminal1]) ∧
  (∃ e A, bdd_root formula var_order = Raise e ∧ formula A = inl e ∧
          bdd_calls formula var_order = [A] ∧
          bdd_store formula var_order = [terminal0; terminal1]).
Proof.
  intros Hall. split.
  - destruct (robdd_run_all_raise _ _ _ _ _ _ _ Hall
                (robdd_final_run formula var_order))
      as (e & A & ? & ? & _ & ? & ? & _);
      [lia|apply assignment_over_empty|done|].
    by exists e, A.
  - destruct (bdd_run_all_raise _ _ _ _ _ _ _ Hall
                (bdd_final_run formula var_order))
      as (e & A & ? & ? & _ & ? & ?);
      [lia|apply assignment_over_empty|].
    by exists e, A.
Qed.

Lemma build_all_raise_witness :
  (∃ e A, robdd_root (λ _, inl IndexError) order1 = Raise e ∧
          (λ _ : Env, @inl exn Z IndexError) A = inl e ∧
          robdd_calls (λ _, inl IndexError) order1 = [A] ∧
          robdd_store (λ _, inl IndexError) order1
            = [terminal0; terminal1]) ∧
  (∃ e A, bdd_root (λ _, inl IndexError) order1 = Raise e ∧
          (λ _ : Env, @inl exn Z IndexError) A = inl e ∧
          bdd_calls (λ _, inl IndexError) order1 = [A] ∧
          bdd_store (λ _, inl IndexError) order1 = [terminal0; terminal1]).
Proof.
  apply (build_all_raise (λ _, inl IndexError) order1).
  intros A HA. exists IndexError. reflexivity.
Defined.

Lemma first_missing_over ks var_order (A : Env) :
  assignment_over var_order A →
  first_missing ks A = head (filter (λ k, k ∉ var_order) ks).
Proof.
  intros [Hdom _]. unfold first_missing. f_equal.
  apply list_filter_iff. intros k.
  rewrite <- not_elem_of_dom, Hdom, elem_of_list_to_set. done.
Qed.

(** An order that lacks a key the formula looks up makes the build fail at
    its first leaf: it raises [KeyError] for the first key, in the
    formula's lookup order, that the order does not name, and no node is
    stored.  For the three programs. *)
Theorem build_missing_variable var_order :
  (∀ k, head (filter (λ k, k ∉ var_order) keys1) = Some k →
     robdd_root formula1 var_order = Raise (KeyError k) ∧
     robdd_store formula1 var_order = [terminal0; terminal1] ∧
     bdd_root formula1 var_order = Raise (KeyError k) ∧
     bdd_store formula1 var_order = [terminal0; terminal1]) ∧
  (∀ k, head (filter (λ k, k ∉ var_order) keys2) = Some k →
     bdd_root formula2 var_order = Raise (KeyError k) ∧
     bdd_store formula2 var_order = [terminal0; terminal1]).
Proof.
  split; intros k Hk.
  - assert (∀ A, assignment_over var_order A →
              formula1 A = inl (KeyError k)) as Hraise.
    { intros A HA. pose proof (formula1_cases A) as Hcases.
      by rewrite (first_missing_over _ _ _ HA), Hk in Hcases. }
    assert (∀ A, assignment_over var_order A →
              ∃ e, formula1 A = inl e) as Hall by eauto.
    destruct (robdd_run_all_raise _ _ _ _ _ _ _ Hall
                (robdd_final_run formula1 var_order))
      as (e & A & Hr & HA & Hover & Hn & _);
      [lia|apply assignment_over_empty|done|].
    destruct (bdd_run_all_raise _ _ _ _ _ _ _ Hall
                (bdd_final_run formula1 var_order))
      as (e' & A' & Hr' & HA' & Hover' & Hn' & _);
      [lia|apply assignment_over_empty|].
    rewrite (Hraise A Hover) in HA. rewrite (Hraise A' Hover') in HA'.
    injection HA as <-. injection HA' as <-. done.
  - assert (∀ A, assignment_over var_order A →
              formula2 A = inl (KeyError k)) as Hraise.
    { intros A HA. pose proof (formula2_cases A) as Hcases.
      by rewrite (first_missing_over _ _ _ HA), Hk in Hcases. }
    assert (∀ A, assignment_over var_order A →
              ∃ e, formula2 A = inl e) as Hall by eauto.
    destruct (bdd_run_all_raise _ _ _ _ _ _ _ Hall
                (bdd_final_run formula2 var_order))
      as (e' & A' & Hr' & HA' & Hover' & Hn' & _);
      [lia|apply assignment_over_empty|].
    rewrite (Hraise A' Hover') in HA'. injection HA' as <-. done.
Qed.

Lemma build_missing_variable_witness :
  robdd_root formula1 ["a"; "c"; "d"]%string = Raise (KeyError "b") ∧
  robdd_store formula1 ["a"; "c"; "d"]%string = [terminal0; terminal1] ∧
  bdd_root formula1 ["a"; "c"; "d"]%string = Raise (KeyError "b") ∧
  bdd_store formula1 ["a"; "c"; "d"]%string = [terminal0; terminal1].
Proof.
  apply (proj1 (build_missing_variable ["a"; "c"; "d"]%string) "b"%string).
  vm_compute. reflexivity.
Defined.

(** * The shape of the plain diagram *)

Lemma bdd_run_root formula var_order idx env s out s' :
  BDD.run formula var_order idx env s (Return out) s' →
  idx ≠ length var_order →
  ∃ v l h, var_order !! idx = Some v ∧
           S out = length (BDD.nodes s') ∧
           BDD.nodes s' !! out = Some (mkNode (Some v) l h).
Proof.
  inversion 1 as [| | | | |? ? ? v low_id s1 high_id s2 ? ? ? Hv _ _ Hmk];
    subst; [done|]. intros _.
  injection Hmk as <- <-. simpl. exists v, low_id, high_id.
  rewrite length_app. simpl. split_and!; [done|lia|].
  rewrite lookup_app_r by lia. by rewrite Nat.sub_diag.
Qed.

(** A plain build that returns leaves exactly 2^n + 1 nodes, for an order
    of length n: the two terminals and one decision node for every call
    above the leaves.  For a non-empty order its root is the node stored
    last, id 2^n, and tests the first variable of the order. *)
Theorem bdd_shape formula var_order root :
  bdd_root formula var_order = Return root →
  length (bdd_store formula var_order) = 2 ^ length var_order + 1 ∧
  (var_order ≠ [] →
     root = 2 ^ length var_order ∧
     ∃ v l h, head var_order = Some v ∧
              bdd_store formula var_order !! root
                = Some (mkNode (Some v) l h)).
Proof.
  intros Hroot.
  pose proof (bdd_final_run formula var_order) as Hrun.
  destruct (bdd_run_calls _ _ _ _ _ _ _ Hrun) as (_ & Hcount & _).
  { lia. } { apply assignment_over_empty. }
  specialize (Hcount root Hroot). simpl in Hcount.
  rewrite Nat.sub_0_r in Hcount.
  split; [unfold bdd_store; lia|]. intros Hne.
  unfold bdd_root in Hroot. rewrite Hroot in Hrun.
  destruct (bdd_run_root _ _ _ _ _ _ _ Hrun) as (v & l & h & Hv & Hlen & Hn).
  { by destruct var_order. }
  split; [lia|]. exists v, l, h. split; [|done].
  by destruct var_order.
Qed.

Lemma bdd_shape_witness :
  length (bdd_store formula2 order2) = 2 ^ length order2 + 1 ∧
  (order2 ≠ [] →
     32 = 2 ^ length order2 ∧
     ∃ v l h, head order2 = Some v ∧
              bdd_store formula2 order2 !! 32 = Some (mkNode (Some v) l h)).
Proof.
  apply (bdd_shape formula2 order2 32). vm_compute. reflexivity.
Defined.

(** * The empty order *)

(** With no variable to branch on, either build invokes the oracle once,
    on the empty assignment, returns the terminal of its value or raises
    what it raised, and stores no node. *)
Theorem build_empty_order formula :
  robdd_root formula []
    = match formula ∅ with
      | inr val => Return (terminal_of val)
      | inl e => Raise e
      end ∧
  robdd_store formula [] = [terminal0; terminal1] ∧
  robdd_calls formula [] = [∅] ∧
  bdd_root formula []
    = match formula ∅ with
      | inr val => Return (terminal_of val)
      | inl e => Raise e
      end ∧
  bdd_store formula [] = [terminal0; terminal1] ∧
  bdd_calls formula [] = [∅].
Proof.
  unfold robdd_root, robdd_store, robdd_calls, bdd_root, bdd_store,
    bdd_calls, ROBDD.build, BDD.build. simpl.
  rewrite lookup_empty. simpl.
  destruct (formula ∅); done.
Qed.

(** * Only the variables that matter are tested *)

Lemma node_origin_app formula var_order (nodes new : list Node) :
  node_origin formula var_order nodes →
  (∀ id n v, new !! id = Some n → var n = Some v →
     ∃ idx env,
       var_order !! idx = Some v ∧
       assignment_over (take idx var_order) env ∧
       represents formula var_order nodes (idx + 1) (<[v:=0%Z]> env) (low n) ∧
       represents formula var_order nodes (idx + 1) (<[v:=1%Z]> env) (high n)) →
  node_origin formula var_order (nodes ++ new).
Proof.
  intros Hold Hnew id n v Hn Hv.
  destruct (decide (id < length nodes)) as [Hlt|Hge].
  - rewrite lookup_app_l in Hn by done.
    destruct (Hold id n v Hn Hv) as (idx & env & ? & ? & ? & ?).
    exists idx, env. split_and!; [done|done|by apply represents_app|by apply represents_app].
  - rewrite lookup_app_r in Hn by lia.
    destruct (Hnew _ n v Hn Hv) as (idx & env & ? & ? & ? & ?).
    exists idx, env. split_and!; [done|done|by apply represents_app|by apply represents_app].
Qed.

Lemma robdd_run_origin formula var_order idx env s r s' :
  ROBDD.run formula var_order idx env s r s' →
  ROBDD.wf s → memo_sound formula var_order s →
  assignment_over (take idx var_order) env →
  node_origin formula var_order (ROBDD.nodes s) →
  node_origin formula var_order (ROBDD.nodes s').
Proof.
  induction 1 as
    [idx env s out Hm
    |idx env s val Hm Hidx Hf
    |idx env s e Hm Hidx Hf
    |idx env s Hm Hidx Hv
    |idx env s v e s1 Hm Hidx Hv Hrun0 IH0
    |idx env s v low_id s1 e s2 Hm Hidx Hv Hrun0 IH0 Hrun1 IH1
    |idx env s v low_id s1 high_id s2 out s3 Hm Hidx Hv Hrun0 IH0 Hrun1 IH1 Hmk];
    intros Hwf Hs Henv Ho; try done.
  - apply IH0; [by apply robdd_wf_log_computed|done| |done].
    eapply assignment_over_insert; eauto.
  - assert (ROBDD.wf (ROBDD.log_computed (idx, frozen env) s)) as Hwf0
      by (by apply robdd_wf_log_computed).
    destruct (robdd_run_sound _ _ _ _ _ _ _ Hrun0 Hwf0 Hs) as [Hs1 _].
    destruct (robdd_run_wf _ _ _ _ _ _ _ Hrun0 Hwf0) as (Hwf1 & _).
    apply IH1; [done..| |].
    + eapply assignment_over_insert; eauto.
    + apply IH0; [done..| |done]. eapply assignment_over_insert; eauto.
  - assert (ROBDD.wf (ROBDD.log_computed (idx, frozen env) s)) as Hwf0
      by (by apply robdd_wf_log_computed).
    destruct (robdd_run_sound _ _ _ _ _ _ _ Hrun0 Hwf0 Hs) as [Hs1 Hl].
    destruct (robdd_run_wf _ _ _ _ _ _ _ Hrun0 Hwf0) as (Hwf1 & _).
    destruct (robdd_run_sound _ _ _ _ _ _ _ Hrun1 Hwf1 Hs1) as [Hs2 Hh].
    destruct (robdd_run_wf _ _ _ _ _ _ _ Hrun1 Hwf1) as (Hwf2 & [n2 Hn2] & _).
    specialize (Hl _ eq_refl). specialize (Hh _ eq_refl).
    assert (node_origin formula var_order (ROBDD.nodes s2)) as Ho2.
    { apply IH1; [done..| |].
      - eapply assignment_over_insert; eauto.
      - apply IH0; [done..| |done]. eapply assignment_over_insert; eauto. }
    simpl. revert Hmk. unfold ROBDD.mk. case_decide as Hlh.
    { by intros [= <- <-]. }
    destruct (ROBDD.unique_table s2 !! (v, low_id, high_id)) as [uid|].
    { by intros [= <- <-]. }
    intros [= <- <-]. simpl. apply node_origin_app; [done|].
    intros [|id] n w Hn Hw; [|done]. injection Hn as <-.
    simpl in *. injection Hw as <-.
    exists idx, env. split_and!; [done..| |done].
    rewrite Hn2. by apply represents_app.
Qed.

Lemma extend_assignment_over (A : Env) : ∀ rest pre (env : Env),
  assignment_over pre env → covers rest A →
  assignment_over (pre ++ rest) (extend rest A env).
Proof.
  induction rest as [|x rest IH]; intros pre env Henv Hc; simpl.
  { by rewrite app_nil_r. }
  replace (pre ++ x :: rest) with ((pre ++ [x]) ++ rest)
    by (by rewrite <- app_assoc).
  apply IH.
  - destruct Henv as [Hdom Hbits]. split.
    + rewrite dom_insert_L, Hdom, list_to_set_app_L. set_solver.
    + intros w b. rewrite lookup_insert. case_decide; [|by apply Hbits].
      intros [= <-]. destruct (Hc x) as [-> | ->]; [by left|simpl; auto..].
  - intros w Hw. apply Hc. by right.
Qed.

(** For an order without repeated names: when the oracle gives the same
    result whatever the value of a variable [v], no node of the reduced
    store tests [v]. *)
Theorem robdd_tests_only_needed formula var_order v id n :
  NoDup var_order →
  (∀ A, assignment_over var_order A →
     formula (<[v:=0%Z]> A) = formula (<[v:=1%Z]> A)) →
  robdd_store formula var_order !! id = Some n →
  var n ≠ Some v.
Proof.
  intros Hnd Hind Hn Hv.
  pose proof (robdd_final_wf formula var_order) as Hwf.
  pose proof (robdd_final_run formula var_order) as Hrun.
  assert (node_origin formula var_order (robdd_store formula var_order))
    as Ho.
  { eapply robdd_run_origin;
      [exact Hrun|apply robdd_init_wf|apply robdd_init_sound
      |apply assignment_over_empty|].
    intros [|[|i]] m u Hm Hu; [by injection Hm as <-..|done]. }
  destruct (Ho id n v Hn Hv) as (idx & env & Hidx & Henv & Hlow & Hhigh).
  assert (2 ≤ id) as Hge.
  { destruct id as [|[|id]]; [..|lia]; unfold robdd_store in Hn.
    - rewrite (ROBDD.wf_terminal0 _ Hwf) in Hn. by injection Hn as <-.
    - rewrite (ROBDD.wf_terminal1 _ Hwf) in Hn. by injection Hn as <-. }
  destruct (ROBDD.wf_node _ Hwf id n Hn Hge) as (_ & _ & Hl & Hh & Hne & _).
  apply lookup_lt_Some in Hn.
  apply Hne. apply (robdd_final_canonical formula var_order);
    [done|unfold robdd_store in *; lia..|].
  intros A HA. pose proof (assignment_covers _ _ HA) as Hc.
  destruct (Hlow A Hc) as (val0 & Hf0 & Hr0).
  destruct (Hhigh A Hc) as (val1 & Hf1 & Hr1).
  set (rest := drop (idx + 1) var_order) in *.
  assert (v ∉ rest) as Hnotin.
  { intros [j Hj]%list_elem_of_lookup_1. unfold rest in Hj.
    rewrite lookup_drop in Hj.
    assert (idx + 1 + j = idx) by (by eapply NoDup_lookup). lia. }
  set (E0 := extend rest A (<[v:=0%Z]> env)) in *.
  assert (extend rest A (<[v:=1%Z]> env) = <[v:=1%Z]> E0) as HE1.
  { apply map_eq. intros k. unfold E0.
    rewrite lookup_insert, !lookup_extend.
    destruct (decide (k ∈ rest)) as [Hin|Hnin].
    - rewrite decide_False by (by intros ->). done.
    - rewrite !lookup_insert. by case_decide. }
  assert (<[v:=0%Z]> E0 = E0) as HE0.
  { apply insert_id. unfold E0. rewrite lookup_extend.
    rewrite decide_False by done. apply lookup_insert_eq. }
  assert (assignment_over var_order E0) as HE0over.
  { rewrite <- (take_drop (idx + 1) var_order). apply extend_assignment_over.
    - eapply assignment_over_insert; eauto.
    - intros w Hw. apply Hc. unfold rest in Hw.
      by apply (subseteq_drop (idx + 1) var_order). }
  specialize (Hind E0 HE0over). rewrite HE0, <- HE1 in Hind.
  rewrite Hf0, Hf1 in Hind. injection Hind as <-.
  etrans; [exact (reaches_traverse _ _ _ _ (robdd_wf_children _ Hwf) Hr0)|].
  symmetry.
  exact (reaches_traverse _ _ _ _ (robdd_wf_children _ Hwf) Hr1).
Qed.

Lemma robdd_tests_only_needed_witness :
  var (mkNode (Some "a"%string) 4 5) ≠ Some "e"%string.
Proof.
  apply (robdd_tests_only_needed formula1
           ["a"; "e"; "c"; "b"; "d"]%string "e"%string 6).
  - apply (bool_decide_unpack _). vm_compute. exact I.
  - intros A _. unfold formula1, getitem.
    rewrite !lookup_insert_ne by done. reflexivity.
  - vm_compute. reflexivity.
Defined.

(** * The file [write_dot] writes *)

Lemma string_has_app c (s t : string) :
  string_has c (s +:+ t) = string_has c s || string_has c t.
Proof.
  induction s as [|a s IH]; [done|].
  change (bool_decide (a = c) || string_has c (s +:+ t)
          = bool_decide (a = c) || string_has c s || string_has c t).
  rewrite IH. by rewrite orb_assoc.
Qed.

Lemma newline_free_app (s t : string) :
  newline_free (s +:+ t) ↔ newline_free s ∧ newline_free t.
Proof. unfold newline_free. rewrite string_has_app. apply orb_false_iff. Qed.

Lemma pretty_N_go_newline_free (x : N) : ∀ s,
  newline_free s → newline_free (pretty_N_go x s).
Proof.
  induction (N.lt_wf_0 x) as [x _ IH]. intros s Hs.
  assert (x = 0 ∨ 0 < x)%N as [->|Hpos] by lia.
  - by rewrite pretty_N_go_0.
  - rewrite pretty_N_go_step by done. apply IH.
    + by apply N.div_lt.
    + unfold newline_free in *. simpl. rewrite Hs.
      unfold pretty_N_char. by repeat case_match.
Qed.

Lemma pretty_nat_newline_free (n : nat) : newline_free (pretty n).
Proof.
  unfold pretty, pretty_nat, pretty, pretty_N. case_decide; [done|].
  by apply pretty_N_go_newline_free.
Qed.

(** Two texts that start with a line without line feed, then a line feed,
    are equal only if the first lines and the rests are. *)
Lemma split_at_newline (x x' R R' : string) :
  newline_free x → newline_free x' →
  x +:+ newline +:+ R = x' +:+ newline +:+ R' →
  x = x' ∧ R = R'.
Proof.
  revert x'. induction x as [|a x IH]; intros [|b x'] Hx Hx' Heq.
  - change (String "010" R = String "010" R') in Heq. by injection Heq as ->.
  - change (String "010" R = String b (x' +:+ newline +:+ R')) in Heq.
    injection Heq as <- _. unfold newline_free in Hx'. simpl in Hx'.
    first [done|by rewrite bool_decide_true in Hx'].
  - change (String a (x +:+ newline +:+ R) = String "010" R') in Heq.
    injection Heq as -> _. unfold newline_free in Hx. simpl in Hx.
    first [done|by rewrite bool_decide_true in Hx].
  - change (String a (x +:+ newline +:+ R)
            = String b (x' +:+ newline +:+ R')) in Heq.
    injection Heq as -> Heq.
    unfold newline_free in Hx, Hx'. simpl in Hx, Hx'.
    apply orb_false_iff in Hx as [_ Hx]. apply orb_false_iff in Hx' as [_ Hx'].
    destruct (IH x' Hx Hx' Heq) as [-> ->]. done.
Qed.

Lemma concat_newline_cons (x y : string) (l : list string) :
  String.concat newline (x :: y :: l)
  = x +:+ newline +:+ String.concat newline (y :: l).
Proof. done. Qed.

(** Joining lines without line feed by line feeds loses nothing. *)
Lemma concat_newline_inj (l l' : list string) :
  l ≠ [] → l' ≠ [] →
  Forall newline_free l → Forall newline_free l' →
  String.concat newline l = String.concat newline l' →
  l = l'.
Proof.
  revert l'. induction l as [|x l IH]; intros [|x' l'] Hne Hne' Hl Hl' Heq;
    try done.
  apply Forall_cons in Hl as [Hx Hl]. apply Forall_cons in Hl' as [Hx' Hl'].
  destruct l as [|y l], l' as [|y' l'].
  - simpl in Heq. by subst.
  - rewrite concat_newline_cons in Heq. simpl in Heq. subst x.
    apply newline_free_app in Hx as [_ Hx].
    apply newline_free_app in Hx as [Hx _]. done.
  - rewrite concat_newline_cons in Heq. simpl in Heq. subst x'.
    apply newline_free_app in Hx' as [_ Hx'].
    apply newline_free_app in Hx' as [Hx' _]. done.
  - rewrite !concat_newline_cons in Heq.
    apply split_at_newline in Heq as [-> Heq]; [|done..].
    f_equal. by apply IH.
Qed.

Lemma dot_lines_newline_free name nodes root :
  newline_free name → names_newline_free nodes →
  Forall newline_free (dot_lines name nodes root).
Proof.
  intros Hname Hnames. apply Forall_forall. intros l.
  unfold dot_lines. rewrite !elem_of_app, !elem_of_node_lines.
  pose proof pretty_nat_newline_free as Hp.
  assert (∀ n, (∃ id, nodes !! id = Some n) →
            newline_free (fmt_var (var n))) as Hvar.
  { intros n [id Hn]. destruct (var n) as [v|] eqn:Hv; [|done].
    by eapply Hnames. }
  intros [Hl|[(nid & n & _ & Hn & Hl)|[(nid & n & _ & Hn & Hl)|Hl]]].
  - unfold dot_header in Hl.
    repeat (apply elem_of_cons in Hl as [->|Hl]); try done.
    + by repeat (apply newline_free_app; split).
    + by apply elem_of_nil in Hl.
  - apply list_elem_of_singleton in Hl as ->. unfold decl_line.
    repeat (apply newline_free_app; split); try done; eauto.
  - apply elem_of_cons in Hl as [->|Hl];
      [|apply list_elem_of_singleton in Hl as ->];
      unfold low_edge_line, high_edge_line;
      repeat (apply newline_free_app; split); done.
  - unfold dot_footer in Hl.
    repeat (apply elem_of_cons in Hl as [->|Hl]); try done.
    + unfold root_line. repeat (apply newline_free_app; split); done.
    + by apply elem_of_nil in Hl.
Qed.

(** The file [write_dot] writes loses nothing: if the graph name and the
    variable names hold no line feed, two stores whose nodes from id 2 on
    all test a variable and that are written, with their roots, to the same
    file content hold the same decision nodes at the same ids and have the
    same root. *)
Theorem write_dot_lossless name nodes nodes' root root' file file' :
  newline_free name →
  decisions_from_2 nodes → decisions_from_2 nodes' →
  names_newline_free nodes → names_newline_free nodes' →
  (write_dot name nodes root file).1.2
    = (write_dot name nodes' root' file').1.2 →
  drop 2 nodes = drop 2 nodes' ∧ root = root'.
Proof.
  intros Hname Hd Hd' Hn Hn' Heq.
  change (String.concat newline (dot_lines name nodes root)
          = String.concat newline (dot_lines name nodes' root')) in Heq.
  apply concat_newline_inj in Heq;
    [|done|done|by apply dot_lines_newline_free..].
  assert (length (drop 2 nodes) = length (drop 2 nodes')) as Hlen.
  { apply (f_equal length) in Heq.
    rewrite !dot_lines_length in Heq.
    rewrite !length_drop. lia. }
  unfold dot_lines in Heq. apply app_inv_head in Heq.
  rewrite !node_lines_imap in Heq.
  apply app_inj_1 in Heq as [Hdecl Heq];
    [|by rewrite !(concat_imap_length 1), Hlen].
  apply app_inj_1 in Heq as [Hedge Hfoot];
    [|by rewrite !(concat_imap_length 2), Hlen].
  split.
  - apply concat_imap_inj with (c := 1) in Hdecl; [|done..].
    apply concat_imap_inj with (c := 2) in Hedge; [|done..].
    apply Forall2_fields_eq; [by apply decisions_from_2_drop..| |].
    + eapply Forall2_impl; [exact Hdecl|]. intros n n' [k Hk].
      apply (decl_line_inj (2 + k)). congruence.
    + eapply Forall2_impl; [exact Hedge|]. intros n n' [k Hk].
      split; [apply (low_edge_line_inj (2 + k))
             |apply (high_edge_line_inj (2 + k))]; congruence.
  - apply root_line_inj. unfold dot_footer in Hfoot. congruence.
Qed.

Lemma write_dot_lossless_witness :
  drop 2 (robdd_store formula1 order1) = drop 2 (robdd_store formula1 order1)
  ∧ 6 = 6.
Proof.
  apply (write_dot_lossless "ROBDD" (robdd_store formula1 order1)
           (robdd_store formula1 order1) 6 6 "graphviz.dot" "graphviz.dot").
  - vm_compute. reflexivity.
  - apply robdd_wf_decisions, robdd_final_wf.
  - apply robdd_wf_decisions, robdd_final_wf.
  - intros id n v Hn Hv.
    destruct (robdd_final_ordered formula1 order1 id n v Hn Hv)
      as (p & Hp & _).
    destruct p as [|[|[|[|p]]]]; simpl in Hp; [..|done];
      injection Hp as <-; vm_compute; reflexivity.
  - intros id n v Hn Hv.
    destruct (robdd_final_ordered formula1 order1 id n v Hn Hv)
      as (p & Hp & _).
    destruct p as [|[|[|[|p]]]]; simpl in Hp; [..|done];
      injection Hp as <-; vm_compute; reflexivity.
  - reflexivity.
Defined.
